(** * chunkflow: a shallow embedding of the upload engine's stateful parts

    The development follows the TypeScript sources, one module per class
    or function:
    - [ChunkSizeAdjuster]: constructor, [adjust], [getCurrentSize], [reset];
    - [TCPChunkSizeAdjuster]: the adjuster with slow start, congestion
      avoidance and fast recovery;
    - [UploadStorage]: the IndexedDB store of upload records;
    - [UploadManager]: [resumeTask] and what it calls, [init],
      [clearAllUnfinishedTasks], [getStatistics];
    - [ConcurrencyController]: the p-limit limiter behind [run],
      [updateLimit] and [clearQueue];
    - [EventBus]: [createEventBus], that is the mitt emitter;
    - [UploadController]: the [getFile] handler of the server;
    - [FileUtils]: [calculateFileHash], [calculateSpeed],
      [estimateRemainingTime].

    JavaScript numbers are modelled by their values: chunk sizes and
    times as rationals [Q] (the adjuster halves sizes with [/], which is
    not an integer division), byte counts, offsets and timestamps as
    integers [Z]. Doubling and halving are exact on doubles save at the
    ends of their range and are modelled exactly; a product or quotient
    that a double cannot hold in general, such as [targetTime * 1.5] or
    [uploadTimeMs / targetTime], is rounded to the nearest double as the
    processor does, by [round_double]. [NaN] and the infinities have no
    counterpart in [Q]: what is proved of constructed objects is stated
    for options that are numbers, under the comparisons the constructors
    test. A method that may throw returns a
    [result]; a method of a mutable object takes the object's state and
    returns the new one, also when it throws. What the browser, the clock
    or the event loop decides is an argument of the function it decides
    for.

    The packages p-limit and mitt are dependencies, not sources of the
    repository; their limiter and emitter are modelled after the
    behaviour the packages publish, and the classes of the repository on
    top of them after their source. *)

From Stdlib Require Import QArith Qminmax Qround Qpower Qabs ZArith NArith Lia Lqa.
From Stdlib Require Floats.
From Stdlib Require Import DecimalString DecimalNat DecimalN DecimalZ DecimalPos.
From stdpp Require Import gmap strings list fin_maps.

Set Default Proof Using "Type".

(** ** Outcomes of calls that may throw *)

Inductive result (E A : Type) : Type :=
| Ok (a : A)
| Throw (e : E).
Arguments Ok {E A} a.
Arguments Throw {E A} e.

Definition is_ok {E A} (r : result E A) : bool :=
  match r with Ok _ => true | Throw _ => false end.

(** Case analysis on every [Qmin] and [Qmax] in sight. *)
Ltac minmax_cases :=
  repeat match goal with
  | |- context [Qmin ?a ?b] =>
      let H := fresh "Hmin" in let x := fresh "x" in let E := fresh "E" in
      pose proof (Q.min_spec a b) as H; remember (Qmin a b) as x eqn:E; clear E
  | |- context [Qmax ?a ?b] =>
      let H := fresh "Hmax" in let x := fresh "x" in let E := fresh "E" in
      pose proof (Q.max_spec a b) as H; remember (Qmax a b) as x eqn:E; clear E
  | _ : context [Qmin ?a ?b] |- _ =>
      let H := fresh "Hmin" in let x := fresh "x" in let E := fresh "E" in
      pose proof (Q.min_spec a b) as H; remember (Qmin a b) as x eqn:E; clear E
  | _ : context [Qmax ?a ?b] |- _ =>
      let H := fresh "Hmax" in let x := fresh "x" in let E := fresh "E" in
      pose proof (Q.max_spec a b) as H; remember (Qmax a b) as x eqn:E; clear E
  end.

(** ** JavaScript numbers: rounding to the nearest double *)

Local Open Scope Q_scope.

(** The largest [k] with [2^k <= x], for a positive [x]. *)
Definition floor_log2 (x : Q) : Z :=
  let k := (Z.log2 (Qnum x) - Z.log2 (Zpos (Qden x)))%Z in
  if Qle_bool (2 ^ k) x then k else (k - 1)%Z.

(** The nearest integer, a tie going to the even one. *)
Definition round_half_even (x : Q) : Z :=
  let f := Qfloor x in
  match Qcompare (x - inject_Z f) (1 # 2) with
  | Lt => f
  | Gt => (f + 1)%Z
  | Eq => if Z.even f then f else (f + 1)%Z
  end.

(** The value an arithmetic operation of JavaScript yields for the exact
    result [x]: the nearest number with a significand of 53 binary digits
    (IEEE 754 binary64, round to nearest, ties to even), the spacing
    never going below [2^-1074]. Results beyond the largest double, which
    JavaScript turns into [Infinity], are outside this model. *)
Definition round_double (x : Q) : Q :=
  if Qeq_bool x 0 then 0
  else
    let e := Z.max (floor_log2 (Qabs x) - 52) (-1074) in
    inject_Z (round_half_even (x / 2 ^ e)) * 2 ^ e.

(** The value of a finite binary64 number. *)
Definition SF2Q (f : SpecFloat.spec_float) : Q :=
  match f with
  | SpecFloat.S754_finite s m e =>
      (if s then -1 else 1) * inject_Z (Zpos m) * 2 ^ e
  | _ => 0
  end.

(** The doubles nearest to 1000.1 and to 1500.15, and the double 1.5. *)
Definition double_1000_1 : Q := 8796972631510221 # 8796093022208.
Definition double_1500_15 : Q := 3298864736816333 # 2199023255552.
Definition float_1000_1 : PrimFloat.float :=
  FloatOps.SF2Prim (SpecFloat.S754_finite false 8796972631510221 (-43)).
Definition float_1500_15 : PrimFloat.float :=
  FloatOps.SF2Prim (SpecFloat.S754_finite false 6597729473632666 (-42)).
Definition float_1_5 : PrimFloat.float :=
  FloatOps.SF2Prim (SpecFloat.S754_finite false 6755399441055744 (-52)).






(** [round_double] against the processor's arithmetic, on the product
    and the quotient that separate the exact thresholds from the
    computed ones: [1000.1 * 1.5] is [1500.15] as doubles, and
    [1500.15 / 1000.1] is [1.5]. *)
Example round_double_binary64 :
  SF2Q (FloatOps.Prim2SF float_1000_1) = double_1000_1
  /\ Qred (SF2Q (FloatOps.Prim2SF float_1500_15)) = double_1500_15
  /\ SF2Q (FloatOps.Prim2SF (PrimFloat.mul float_1000_1 float_1_5))
     == round_double (double_1000_1 * (3 # 2))
  /\ SF2Q (FloatOps.Prim2SF (PrimFloat.div float_1500_15 float_1000_1))
     == round_double (double_1500_15 / double_1000_1)
  /\ round_double (double_1000_1 * (3 # 2)) == double_1500_15
  /\ round_double (double_1500_15 / double_1000_1) == 3 # 2
  /\ (3 # 2) * double_1000_1 < double_1500_15.
Proof. repeat split; by vm_compute. Qed.

Local Close Scope Q_scope.

(** ** ChunkSizeAdjuster *)

Module ChunkSizeAdjuster.

Local Open Scope Q_scope.

(** [BaseChunkSizeAdjusterOptions]: [targetTime] is optional. *)
Record ChunkSizeAdjusterOptions : Type := mkOptions {
  initialSize : Q;
  minSize : Q;
  maxSize : Q;
  targetTime : option Q
}.

(** [Required<ChunkSizeAdjusterOptions>], after the default is spread in:
    [{ targetTime: 3000, ...options }]. *)
Record RequiredOptions : Type := mkRequired {
  r_initialSize : Q;
  r_minSize : Q;
  r_maxSize : Q;
  r_targetTime : Q
}.

Definition with_defaults (o : ChunkSizeAdjusterOptions) : RequiredOptions :=
  {| r_initialSize := initialSize o;
     r_minSize := minSize o;
     r_maxSize := maxSize o;
     r_targetTime := match targetTime o with Some t => t | None => 3000 end |}.

(** The object: [private currentSize] and [private readonly options]. *)
Record t : Type := mkAdjuster {
  currentSize : Q;
  options : RequiredOptions
}.

Definition set_currentSize (v : Q) (a : t) : t :=
  {| currentSize := v; options := options a |}.

(** [x < y] as the JavaScript test, a boolean. *)
Definition ltb (x y : Q) : bool := if Qlt_le_dec x y then true else false.
(** [x <= y] *)
Definition leb (x y : Q) : bool := if Qlt_le_dec y x then false else true.

(** [constructor(options)]: the three validations, in source order. *)
Definition new (o : ChunkSizeAdjusterOptions) : result string t :=
  let this := {| currentSize := initialSize o; options := with_defaults o |} in
  let opts := options this in
  if ltb (r_maxSize opts) (r_minSize opts) then
    Throw "minSize cannot be greater than maxSize"%string
  else if ltb (r_initialSize opts) (r_minSize opts)
          || ltb (r_maxSize opts) (r_initialSize opts) then
    Throw "initialSize must be between minSize and maxSize"%string
  else if leb (r_targetTime opts) 0 then
    Throw "targetTime must be positive"%string
  else Ok this.

(** [adjust(uploadTimeMs)]: returns the thrown error or the new size,
    together with the object after the call. The product
    [targetTime * 0.5] is a halving, exact on doubles; [targetTime * 1.5]
    is rounded. *)
Definition adjust (uploadTimeMs : Q) (a : t) : result string Q * t :=
  if ltb uploadTimeMs 0 then
    (Throw "uploadTimeMs cannot be negative"%string, a)
  else
    let targetTime := r_targetTime (options a) in
    let minSize := r_minSize (options a) in
    let maxSize := r_maxSize (options a) in
    let a' :=
      if ltb uploadTimeMs (targetTime * (1 # 2)) then
        set_currentSize (Qmin (currentSize a * 2) maxSize) a
      else if ltb (round_double (targetTime * (3 # 2))) uploadTimeMs then
        set_currentSize (Qmax (currentSize a / 2) minSize) a
      else a in
    (Ok (currentSize a'), a').

Definition getCurrentSize (a : t) : Q := currentSize a.

Definition reset (a : t) : t := set_currentSize (r_initialSize (options a)) a.

(** A sequence of [adjust] calls on one object; a call that throws is
    caught by the caller and the sequence goes on. *)
Fixpoint adjust_all (ts : list Q) (a : t) : t :=
  match ts with
  | [] => a
  | u :: ts' => adjust_all ts' (snd (adjust u a))
  end.

(** The class invariant. *)
Definition in_bounds (a : t) : Prop :=
  r_minSize (options a) <= currentSize a /\ currentSize a <= r_maxSize (options a).

(** What the constructor rejects. *)
Definition invalid (o : ChunkSizeAdjusterOptions) : Prop :=
  minSize o > maxSize o
  \/ (initialSize o < minSize o \/ initialSize o > maxSize o)
  \/ (exists tt, targetTime o = Some tt /\ tt <= 0).

Lemma ltb_true x y : ltb x y = true <-> x < y.
Proof.
  unfold ltb. destruct (Qlt_le_dec x y) as [H|H]; split; try done.
  intros H'. exfalso. apply (Qlt_not_le _ _ H' H).
Qed.

Lemma ltb_false x y : ltb x y = false <-> y <= x.
Proof.
  unfold ltb. destruct (Qlt_le_dec x y) as [H|H]; split; try done.
  intros H'. exfalso. apply (Qlt_not_le _ _ H H').
Qed.

Lemma leb_true x y : leb x y = true <-> x <= y.
Proof.
  unfold leb. destruct (Qlt_le_dec y x) as [H|H]; split; try done.
  intros H'. exfalso. apply (Qlt_not_le _ _ H H').
Qed.

Lemma leb_false x y : leb x y = false <-> y < x.
Proof.
  unfold leb. destruct (Qlt_le_dec y x) as [H|H]; split; try done.
  intros H'. exfalso. apply (Qlt_not_le _ _ H' H).
Qed.

Lemma adjust_options u a : options (snd (adjust u a)) = options a.
Proof.
  unfold adjust. destruct (ltb u 0); [done|].
  cbn. destruct (ltb u _); [done|]. destruct (ltb _ u); done.
Qed.

Lemma adjust_in_bounds u a :
  0 <= r_minSize (options a) -> in_bounds a -> in_bounds (snd (adjust u a)).
Proof.
  intros Hmin [Hlo Hhi]. unfold adjust, in_bounds.
  destruct (ltb u 0); [done|]. cbn.
  destruct (ltb u _) eqn:Hfast; cbn.
  - destruct (Q.min_spec (currentSize a * 2) (r_maxSize (options a)))
      as [[Hc He]|[Hc He]]; rewrite He; split; lra.
  - destruct (ltb _ u) eqn:Hslow; cbn; [|done].
    change (currentSize a / 2) with (currentSize a * (1 # 2)).
    destruct (Q.max_spec (currentSize a * (1 # 2)) (r_minSize (options a)))
      as [[Hc He]|[Hc He]]; rewrite He; split; lra.
Qed.

Lemma adjust_all_options ts a : options (adjust_all ts a) = options a.
Proof.
  revert a. induction ts as [|u ts IH]; intros a; [done|].
  cbn. by rewrite IH, adjust_options.
Qed.

Lemma adjust_all_preserves ts a :
  0 <= r_minSize (options a) -> in_bounds a -> in_bounds (adjust_all ts a).
Proof.
  revert a. induction ts as [|u ts IH]; intros a Hmin Hb; [done|].
  cbn. apply IH; [by rewrite adjust_options | by apply adjust_in_bounds].
Qed.

(** Construction succeeds on options the three checks accept. *)
Lemma new_accepts o :
  minSize o <= initialSize o -> initialSize o <= maxSize o ->
  (forall tt, targetTime o = Some tt -> 0 < tt) ->
  new o = Ok {| currentSize := initialSize o; options := with_defaults o |}.
Proof.
  intros Hlo Hhi Ht. unfold new. cbn.
  assert (ltb (maxSize o) (minSize o) = false) as ->
    by (apply ltb_false; lra).
  assert (ltb (initialSize o) (minSize o) = false) as ->
    by (by apply ltb_false).
  assert (ltb (maxSize o) (initialSize o) = false) as ->
    by (by apply ltb_false).
  cbn.
  assert (leb (match targetTime o with Some t0 => t0 | None => 3000 end) 0 = false) as ->.
  { apply leb_false. destruct (targetTime o) as [tt|]; [by apply Ht | reflexivity]. }
  done.
Qed.

(** The example of the class documentation: 1 MiB, within 256 KiB and
    10 MiB, target 3000 ms. *)
Definition doc_options : ChunkSizeAdjusterOptions :=
  {| initialSize := 1048576; minSize := 262144; maxSize := 10485760;
     targetTime := Some 3000 |}.

Definition doc_adjuster : t :=
  {| currentSize := 1048576; options := with_defaults doc_options |}.

(** Options the constructor accepts although the sizes are negative. *)
Definition negative_options : ChunkSizeAdjusterOptions :=
  {| initialSize := -2; minSize := -3; maxSize := 10; targetTime := Some 3000 |}.

(** C1, as stated, fails: the constructor accepts negative sizes, and
    doubling a negative size moves it below [minSize]. With
    [initialSize = -2], [minSize = -3], [maxSize = 10] one fast upload
    gives [min (-4) 10 = -4 < -3]. *)
Lemma adjust_bounds_negative_sizes :
  minSize negative_options <= initialSize negative_options
  /\ initialSize negative_options <= maxSize negative_options
  /\ targetTime negative_options = Some 3000
  /\ exists a0, new negative_options = Ok a0
       /\ getCurrentSize (adjust_all [0] a0) == -4
       /\ getCurrentSize (adjust_all [0] a0) < minSize negative_options.
Proof.
  split; [by vm_compute|]. split; [by vm_compute|]. split; [done|].
  eexists. split; [reflexivity|]. split; reflexivity.
Qed.

(** C1 (amended): for options with [0 <= minSize <= initialSize <=
    maxSize] and a positive [targetTime] (when one is given), the
    constructor succeeds and after any sequence of [adjust] calls
    (throwing calls included) [minSize <= getCurrentSize() <= maxSize]. *)
Theorem adjust_all_in_bounds o ts :
  0 <= minSize o -> minSize o <= initialSize o -> initialSize o <= maxSize o ->
  (forall tt, targetTime o = Some tt -> 0 < tt) ->
  exists a0, new o = Ok a0
    /\ minSize o <= getCurrentSize (adjust_all ts a0)
    /\ getCurrentSize (adjust_all ts a0) <= maxSize o.
Proof.
  intros Hmin Hlo Hhi Ht. eexists. split; [by apply new_accepts|].
  set (a0 := {| currentSize := initialSize o; options := with_defaults o |}).
  assert (in_bounds (adjust_all ts a0)) as Hb
    by (apply adjust_all_preserves; [exact Hmin | by split]).
  destruct Hb as [H1 H2]. by rewrite adjust_all_options in H1, H2.
Qed.

Lemma adjust_all_in_bounds_witness :
  exists a0, new doc_options = Ok a0
    /\ minSize doc_options <= getCurrentSize (adjust_all [1000; 1000; 9000; 3000] a0)
    /\ getCurrentSize (adjust_all [1000; 1000; 9000; 3000] a0) <= maxSize doc_options.
Proof.
  apply (adjust_all_in_bounds doc_options [1000; 1000; 9000; 3000]).
  - by vm_compute.
  - by vm_compute.
  - by vm_compute.
  - intros tt [= <-]. reflexivity.
Defined.






(** C8: the constructor throws exactly on invalid options (minSize >
    maxSize, initialSize outside [minSize, maxSize], or a supplied
    targetTime <= 0); on all other options it succeeds and
    [getCurrentSize()] is [initialSize]. *)
Theorem new_spec o :
  (invalid o <-> exists e, new o = Throw e)
  /\ (~ invalid o <->
      exists a, new o = Ok a /\ getCurrentSize a = initialSize o
                /\ options a = with_defaults o).
Proof.
  assert (invalid o \/
          (minSize o <= initialSize o /\ initialSize o <= maxSize o
           /\ forall tt, targetTime o = Some tt -> 0 < tt)) as Hcases.
  { unfold invalid.
    destruct (Qlt_le_dec (initialSize o) (minSize o)); [by auto|].
    destruct (Qlt_le_dec (maxSize o) (initialSize o)); [by auto|].
    destruct (targetTime o) as [tt|] eqn:Htt.
    - destruct (Qlt_le_dec 0 tt).
      + right. split; [done|]. split; [done|]. by intros ? [= <-].
      + left. right. right. by exists tt.
    - right. split; [done|]. split; [done|]. done. }
  assert (invalid o -> exists e, new o = Throw e) as Hthrow.
  { intros Hinv. unfold new. cbn.
    destruct (ltb (maxSize o) (minSize o)) eqn:H1; [by eexists|].
    destruct (ltb (initialSize o) (minSize o)) eqn:H2; [by eexists|].
    destruct (ltb (maxSize o) (initialSize o)) eqn:H3; [by eexists|].
    cbn.
    apply ltb_false in H1, H2, H3.
    destruct Hinv as [Hinv|[[Hinv|Hinv]|(tt & Htt & Hle)]]; try lra.
    rewrite Htt. assert (leb tt 0 = true) as -> by (by apply leb_true).
    by eexists. }
  split; split.
  - exact Hthrow.
  - intros [e He]. destruct Hcases as [|(Hlo & Hhi & Ht)]; [done|].
    by rewrite (new_accepts o Hlo Hhi Ht) in He.
  - intros Hn. destruct Hcases as [|(Hlo & Hhi & Ht)]; [done|].
    eexists. split; [by apply new_accepts|]. done.
  - intros (a & Ha & _) Hinv. destruct (Hthrow Hinv) as [e He]. congruence.
Qed.

(** C10: a negative upload time makes [adjust] throw
    "uploadTimeMs cannot be negative" and leaves the object, hence the
    current chunk size, as it was. *)
Theorem adjust_negative a u :
  u < 0 ->
  adjust u a = (Throw "uploadTimeMs cannot be negative"%string, a)
  /\ getCurrentSize (snd (adjust u a)) = getCurrentSize a.
Proof.
  intros Hu. unfold adjust.
  assert (ltb u 0 = true) as -> by (by apply ltb_true). done.
Qed.

Lemma adjust_negative_witness :
  adjust (-100) doc_adjuster
    = (Throw "uploadTimeMs cannot be negative"%string, doc_adjuster)
  /\ getCurrentSize (snd (adjust (-100) doc_adjuster)) = getCurrentSize doc_adjuster.
Proof. apply (adjust_negative doc_adjuster (-100)). by vm_compute. Defined.

(** *** Further properties of the adjuster *)

Lemma new_ok o a :
  new o = Ok a -> a = {| currentSize := initialSize o; options := with_defaults o |}.
Proof.
  unfold new. cbn.
  destruct (ltb (maxSize o) (minSize o)); [done|].
  destruct (ltb (initialSize o) (minSize o) || ltb (maxSize o) (initialSize o)); [done|].
  destruct (leb _ 0); [done|]. by intros [= <-].
Qed.

(** [reset()] after any history of [adjust] calls gives back the object
    the constructor returned: [adjust] never touches the options, and
    [reset] restores [initialSize]. *)
Theorem reset_restores_initial o a0 ts :
  new o = Ok a0 ->
  reset (adjust_all ts a0) = a0
  /\ getCurrentSize (reset (adjust_all ts a0)) = initialSize o.
Proof.
  intros Hnew. apply new_ok in Hnew. subst a0.
  unfold reset, set_currentSize, getCurrentSize.
  by rewrite adjust_all_options.
Qed.

Lemma reset_restores_initial_witness :
  reset (adjust_all [1000; 1000; 9000] doc_adjuster) = doc_adjuster
  /\ getCurrentSize (reset (adjust_all [1000; 1000; 9000] doc_adjuster)) = 1048576.
Proof. apply (reset_restores_initial doc_options). reflexivity. Defined.


















End ChunkSizeAdjuster.

(** ** TCPChunkSizeAdjuster: slow start, congestion avoidance, recovery *)

Module TCPChunkSizeAdjuster.

Local Open Scope Q_scope.

Import ChunkSizeAdjuster (ltb, leb, ltb_true, ltb_false, leb_true, leb_false).

(** [TCPChunkSizeAdjusterOptions]: [targetTime] and [initialSsthresh] are
    optional. *)
Record TCPChunkSizeAdjusterOptions : Type := mkOptions {
  initialSize : Q;
  minSize : Q;
  maxSize : Q;
  targetTime : option Q;
  initialSsthresh : option Q
}.

Record RequiredOptions : Type := mkRequired {
  r_initialSize : Q;
  r_minSize : Q;
  r_maxSize : Q;
  r_targetTime : Q;
  r_initialSsthresh : Q
}.

(** [{ targetTime: 3000, initialSsthresh: options.initialSsthresh ??
    options.maxSize / 2, ...options }] *)
Definition with_defaults (o : TCPChunkSizeAdjusterOptions) : RequiredOptions :=
  {| r_initialSize := initialSize o;
     r_minSize := minSize o;
     r_maxSize := maxSize o;
     r_targetTime := match targetTime o with Some t => t | None => 3000 end;
     r_initialSsthresh :=
       match initialSsthresh o with Some v => v | None => maxSize o / 2 end |}.

Inductive CongestionState : Type :=
| SLOW_START
| CONGESTION_AVOIDANCE
| FAST_RECOVERY.

(** The object's private fields. *)
Record t : Type := mkAdjuster {
  currentSize : Q;
  ssthresh : Q;
  state : CongestionState;
  options : RequiredOptions;
  consecutiveFastUploads : Z;
  consecutiveSlowUploads : Z
}.

(** [Math.floor] *)
Definition floor (x : Q) : Q := inject_Z (Qfloor x).

(** [validate()]: the first failing check, if any. *)
Definition validate (opts : RequiredOptions) : option string :=
  if ltb (r_maxSize opts) (r_minSize opts) then
    Some "minSize cannot be greater than maxSize"%string
  else if ltb (r_initialSize opts) (r_minSize opts)
          || ltb (r_maxSize opts) (r_initialSize opts) then
    Some "initialSize must be between minSize and maxSize"%string
  else if leb (r_targetTime opts) 0 then
    Some "targetTime must be positive"%string
  else if ltb (r_initialSsthresh opts) (r_minSize opts)
          || ltb (r_maxSize opts) (r_initialSsthresh opts) then
    Some "initialSsthresh must be between minSize and maxSize"%string
  else None.

(** [constructor(options)] *)
Definition new (o : TCPChunkSizeAdjusterOptions) : result string t :=
  let opts := with_defaults o in
  let this :=
    {| currentSize := initialSize o;
       ssthresh := r_initialSsthresh opts;
       state := SLOW_START;
       options := opts;
       consecutiveFastUploads := 0;
       consecutiveSlowUploads := 0 |} in
  match validate opts with
  | Some e => Throw e
  | None => Ok this
  end.

(** [handleFastUpload()]: the literal [0.1] is the double nearest to one
    tenth, and the product with it is rounded. *)
Definition handleFastUpload (a : t) : t :=
  let maxSize := r_maxSize (options a) in
  match state a with
  | SLOW_START =>
      let newSize := currentSize a * 2 in
      if leb (ssthresh a) newSize then
        {| currentSize := ssthresh a; ssthresh := ssthresh a;
           state := CONGESTION_AVOIDANCE; options := options a;
           consecutiveFastUploads := consecutiveFastUploads a;
           consecutiveSlowUploads := consecutiveSlowUploads a |}
      else
        {| currentSize := Qmin newSize maxSize; ssthresh := ssthresh a;
           state := state a; options := options a;
           consecutiveFastUploads := consecutiveFastUploads a;
           consecutiveSlowUploads := consecutiveSlowUploads a |}
  | CONGESTION_AVOIDANCE =>
      let increment :=
        Qmax (r_minSize (options a))
             (floor (round_double (currentSize a * round_double (1 # 10)))) in
      {| currentSize := Qmin (currentSize a + increment) maxSize;
         ssthresh := ssthresh a; state := state a; options := options a;
         consecutiveFastUploads := consecutiveFastUploads a;
         consecutiveSlowUploads := consecutiveSlowUploads a |}
  | FAST_RECOVERY =>
      {| currentSize := currentSize a; ssthresh := ssthresh a;
         state := CONGESTION_AVOIDANCE; options := options a;
         consecutiveFastUploads := consecutiveFastUploads a;
         consecutiveSlowUploads := consecutiveSlowUploads a |}
  end.

(** [handleSlowUpload()] *)
Definition handleSlowUpload (a : t) : t :=
  let minSize := r_minSize (options a) in
  let ssthresh' := Qmax minSize (floor (currentSize a / 2)) in
  {| currentSize := ssthresh'; ssthresh := ssthresh';
     state := FAST_RECOVERY; options := options a;
     consecutiveFastUploads := consecutiveFastUploads a;
     consecutiveSlowUploads := consecutiveSlowUploads a |}.

Definition set_counters (fast slow : Z) (a : t) : t :=
  {| currentSize := currentSize a; ssthresh := ssthresh a; state := state a;
     options := options a;
     consecutiveFastUploads := fast; consecutiveSlowUploads := slow |}.

(** The closing clamp, [Math.max(minSize, Math.min(this.currentSize, maxSize))]. *)
Definition clamp (a : t) : t :=
  {| currentSize :=
       Qmax (r_minSize (options a)) (Qmin (currentSize a) (r_maxSize (options a)));
     ssthresh := ssthresh a; state := state a; options := options a;
     consecutiveFastUploads := consecutiveFastUploads a;
     consecutiveSlowUploads := consecutiveSlowUploads a |}.

(** [adjust(uploadTimeMs)]: the thrown error or the new size, and the
    object after the call. The quotient [uploadTimeMs / targetTime] is
    rounded to a double before it is compared with [0.5] and [1.5]. *)
Definition adjust (uploadTimeMs : Q) (a : t) : result string Q * t :=
  if ltb uploadTimeMs 0 then
    (Throw "uploadTimeMs cannot be negative"%string, a)
  else
    let ratio := round_double (uploadTimeMs / r_targetTime (options a)) in
    let a1 :=
      if ltb ratio (1 # 2) then
        handleFastUpload (set_counters (consecutiveFastUploads a + 1) 0 a)
      else if ltb (3 # 2) ratio then
        handleSlowUpload (set_counters 0 (consecutiveSlowUploads a + 1) a)
      else set_counters 0 0 a in
    let a2 := clamp a1 in
    (Ok (currentSize a2), a2).

Definition getCurrentSize (a : t) : Q := currentSize a.
Definition getSsthresh (a : t) : Q := ssthresh a.
Definition getState (a : t) : CongestionState := state a.

(** [reset()] *)
Definition reset (a : t) : t :=
  {| currentSize := r_initialSize (options a);
     ssthresh := r_initialSsthresh (options a);
     state := SLOW_START; options := options a;
     consecutiveFastUploads := 0; consecutiveSlowUploads := 0 |}.

(** A sequence of [adjust] calls on one object. *)
Fixpoint adjust_all (ts : list Q) (a : t) : t :=
  match ts with
  | [] => a
  | u :: ts' => adjust_all ts' (snd (adjust u a))
  end.

(** *** Properties *)

(** What holds of the object between calls. *)
Definition invariant (a : t) : Prop :=
  r_minSize (options a) <= r_maxSize (options a)
  /\ r_minSize (options a) <= currentSize a
  /\ currentSize a <= r_maxSize (options a)
  /\ r_minSize (options a) <= ssthresh a
  /\ (0 <= consecutiveFastUploads a)%Z
  /\ (0 <= consecutiveSlowUploads a)%Z
  /\ (consecutiveFastUploads a = 0%Z \/ consecutiveSlowUploads a = 0%Z).

Lemma validate_None opts :
  validate opts = None <->
  r_minSize opts <= r_maxSize opts
  /\ r_minSize opts <= r_initialSize opts /\ r_initialSize opts <= r_maxSize opts
  /\ 0 < r_targetTime opts
  /\ r_minSize opts <= r_initialSsthresh opts
  /\ r_initialSsthresh opts <= r_maxSize opts.
Proof.
  unfold validate.
  destruct (ltb (r_maxSize opts) (r_minSize opts)) eqn:H1.
  { apply ltb_true in H1. split; [done|]. intros (? & _). lra. }
  destruct (ltb (r_initialSize opts) (r_minSize opts)) eqn:H2.
  { apply ltb_true in H2. split; [done|]. intros (_ & ? & _). lra. }
  destruct (ltb (r_maxSize opts) (r_initialSize opts)) eqn:H3.
  { apply ltb_true in H3. split; [done|]. intros (_ & _ & ? & _). lra. }
  cbn [orb].
  destruct (leb (r_targetTime opts) 0) eqn:H4.
  { apply leb_true in H4. split; [done|]. intros (_ & _ & _ & ? & _). lra. }
  destruct (ltb (r_initialSsthresh opts) (r_minSize opts)) eqn:H5.
  { apply ltb_true in H5. split; [done|]. intros (_ & _ & _ & _ & ? & _). lra. }
  destruct (ltb (r_maxSize opts) (r_initialSsthresh opts)) eqn:H6.
  { apply ltb_true in H6. split; [done|]. intros (_ & _ & _ & _ & _ & ?). lra. }
  cbn [orb].
  apply ltb_false in H1, H2, H3, H5, H6. apply leb_false in H4.
  split; [|done]. intros _. repeat split; done.
Qed.

Lemma new_invariant o a : new o = Ok a -> invariant a.
Proof.
  unfold new. destruct (validate (with_defaults o)) eqn:Hv; [done|].
  intros [= <-]. apply validate_None in Hv as (H1 & H2 & H3 & _ & H5 & _).
  unfold invariant; cbn in *. repeat split; try done. by left.
Qed.

Lemma tcp_adjust_options u a : options (snd (adjust u a)) = options a.
Proof.
  unfold adjust. destruct (ltb u 0); [done|]. cbn.
  destruct (ltb _ (1 # 2)).
  - unfold handleFastUpload. cbn. destruct (state a); [|done|done].
    by destruct (leb _ _).
  - by destruct (ltb (3 # 2) _).
Qed.

Lemma adjust_invariant u a : invariant a -> invariant (snd (adjust u a)).
Proof.
  intros (Hmm & Hlo & Hhi & Hss & Hf & Hs & Hx).
  unfold adjust. destruct (ltb u 0); [done|]. cbn [snd].
  assert (forall a1, options a1 = options a ->
            r_minSize (options a) <= ssthresh a1 ->
            (0 <= consecutiveFastUploads a1)%Z ->
            (0 <= consecutiveSlowUploads a1)%Z ->
            (consecutiveFastUploads a1 = 0%Z \/ consecutiveSlowUploads a1 = 0%Z) ->
            invariant (clamp a1)) as Hclamp.
  { intros a1 Ho H1 H2 H3 H4. unfold invariant, clamp; cbn. rewrite Ho.
    repeat split; try done.
    - apply Q.le_max_l.
    - minmax_cases.
      destruct Hmin as [[? ?]|[? ?]], Hmax as [[? ?]|[? ?]]; lra. }
  destruct (ltb _ (1 # 2)).
  - apply Hclamp; unfold handleFastUpload; cbn;
      destruct (state a); cbn; try destruct (leb _ _); cbn;
      try done; try lia; by right.
  - destruct (ltb (3 # 2) _).
    + apply Hclamp; unfold handleSlowUpload; cbn; try done; try lia;
        first [apply Q.le_max_l | by left].
    + apply Hclamp; cbn; try done. by left.
Qed.

Lemma adjust_all_invariant ts a : invariant a -> invariant (adjust_all ts a).
Proof.
  revert a. induction ts as [|u ts IH]; intros a Hinv; [done|].
  cbn. apply IH. by apply adjust_invariant.
Qed.

Lemma tcp_adjust_all_options ts a : options (adjust_all ts a) = options a.
Proof.
  revert a. induction ts as [|u ts IH]; intros a; [done|].
  cbn. by rewrite IH, tcp_adjust_options.
Qed.

(** The example of the class documentation: 256 KiB within 256 KiB and
    10 MiB, threshold 5 MiB. *)
Definition doc_options : TCPChunkSizeAdjusterOptions :=
  {| initialSize := 262144; minSize := 262144; maxSize := 10485760;
     targetTime := Some 3000; initialSsthresh := Some 5242880 |}.

Definition doc_adjuster : t :=
  {| currentSize := 262144; ssthresh := 5242880; state := SLOW_START;
     options := with_defaults doc_options;
     consecutiveFastUploads := 0; consecutiveSlowUploads := 0 |}.

(** For options whose numbers satisfy the constructor's checks,
    [minSize <= initialSize <= maxSize], a positive [targetTime] (when
    one is given) and [minSize <= initialSsthresh <= maxSize] (for the
    given threshold or the default [maxSize / 2]), whatever the sign of
    the sizes: the constructor succeeds, and any sequence of [adjust]
    calls keeps [minSize <= getCurrentSize() <= maxSize] and
    [minSize <= getSsthresh()]; the closing clamp of [adjust] restores
    the bounds on every call. *)
Theorem tcp_adjust_all_in_bounds o ts :
  minSize o <= initialSize o -> initialSize o <= maxSize o ->
  (forall tt, targetTime o = Some tt -> 0 < tt) ->
  minSize o <= r_initialSsthresh (with_defaults o) ->
  r_initialSsthresh (with_defaults o) <= maxSize o ->
  exists a0, new o = Ok a0
    /\ minSize o <= getCurrentSize (adjust_all ts a0)
    /\ getCurrentSize (adjust_all ts a0) <= maxSize o
    /\ minSize o <= getSsthresh (adjust_all ts a0).
Proof.
  intros Hlo Hhi Ht Hs1 Hs2.
  assert (validate (with_defaults o) = None) as Hv.
  { apply validate_None. cbn [r_minSize r_maxSize r_initialSize with_defaults].
    repeat split; try done; try lra.
    cbn. destruct (targetTime o) as [tt|]; [by apply Ht | reflexivity]. }
  assert (exists a0, new o = Ok a0) as [a0 Hnew].
  { unfold new. rewrite Hv. by eexists. }
  exists a0. split; [done|].
  pose proof (adjust_all_invariant ts a0 (new_invariant o a0 Hnew))
    as (_ & Hlo' & Hhi' & Hss & _).
  rewrite tcp_adjust_all_options in Hlo', Hhi', Hss.
  unfold new in Hnew. rewrite Hv in Hnew. injection Hnew as <-.
  done.
Qed.

Lemma tcp_adjust_all_in_bounds_witness :
  exists a0, new doc_options = Ok a0
    /\ minSize doc_options <= getCurrentSize (adjust_all [100; 100; 9000; 100; 3000] a0)
    /\ getCurrentSize (adjust_all [100; 100; 9000; 100; 3000] a0) <= maxSize doc_options
    /\ minSize doc_options <= getSsthresh (adjust_all [100; 100; 9000; 100; 3000] a0).
Proof.
  apply (tcp_adjust_all_in_bounds doc_options [100; 100; 9000; 100; 3000]).
  - by vm_compute.
  - by vm_compute.
  - intros tt [= <-]. reflexivity.
  - by vm_compute.
  - by vm_compute.
Defined.

(** The two counters of consecutive uploads are never both positive, and
    never negative, after any sequence of calls on a constructed
    adjuster. *)
Theorem tcp_counters_exclusive o a0 ts :
  new o = Ok a0 ->
  (0 <= consecutiveFastUploads (adjust_all ts a0))%Z
  /\ (0 <= consecutiveSlowUploads (adjust_all ts a0))%Z
  /\ (consecutiveFastUploads (adjust_all ts a0) = 0%Z
      \/ consecutiveSlowUploads (adjust_all ts a0) = 0%Z).
Proof.
  intros Hnew.
  by pose proof (adjust_all_invariant ts a0 (new_invariant o a0 Hnew))
    as (_ & _ & _ & _ & Hf & Hs & Hx).
Qed.

Definition two_fast_one_slow : list Q := [100; 100; 9000].

Lemma tcp_counters_exclusive_witness :
  (0 <= consecutiveFastUploads (adjust_all two_fast_one_slow doc_adjuster))%Z
  /\ (0 <= consecutiveSlowUploads (adjust_all two_fast_one_slow doc_adjuster))%Z
  /\ (consecutiveFastUploads (adjust_all two_fast_one_slow doc_adjuster) = 0%Z
      \/ consecutiveSlowUploads (adjust_all two_fast_one_slow doc_adjuster) = 0%Z).
Proof.
  apply (tcp_counters_exclusive doc_options doc_adjuster). reflexivity.
Defined.

Lemma adjust_leaves_slow_start u a :
  state a <> SLOW_START -> state (snd (adjust u a)) <> SLOW_START.
Proof.
  intros Hst. unfold adjust. destruct (ltb u 0); [done|]. cbn.
  destruct (ltb _ (1 # 2)).
  - unfold handleFastUpload. cbn. by destruct (state a).
  - by destruct (ltb (3 # 2) _).
Qed.

(** Slow start is left for good: once the state is congestion avoidance
    or fast recovery, no sequence of [adjust] calls brings the adjuster
    back to slow start (only [reset()] does). *)
Theorem tcp_slow_start_only_once ts : forall a,
  getState a <> SLOW_START ->
  getState (adjust_all ts a) <> SLOW_START
  /\ getState (reset (adjust_all ts a)) = SLOW_START.
Proof.
  unfold getState.
  induction ts as [|u ts IH]; intros a Hst; [done|].
  cbn [adjust_all]. apply IH. by apply adjust_leaves_slow_start.
Qed.

Lemma tcp_slow_start_only_once_witness :
  getState (adjust_all [100; 100; 3000; 100] (snd (adjust 9000 doc_adjuster)))
    <> SLOW_START
  /\ getState (reset (adjust_all [100; 100; 3000; 100] (snd (adjust 9000 doc_adjuster))))
     = SLOW_START.
Proof.
  apply (tcp_slow_start_only_once [100; 100; 3000; 100]). by vm_compute.
Defined.





Lemma clamp_in_bounds_id lo hi c :
  lo <= c -> c <= hi -> Qmax lo (Qmin c hi) == c.
Proof.
  intros H1 H2. minmax_cases.
  destruct Hmin as [[? ?]|[? ?]], Hmax as [[? ?]|[? ?]]; lra.
Qed.

Lemma floor_le x : floor x <= x.
Proof. apply Qfloor_le. Qed.

(** The response to congestion: a slow upload on a size within
    non-negative bounds sets both the threshold and the size to
    [max minSize (floor (size / 2))] and enters fast recovery; the next
    fast upload only moves on to congestion avoidance and leaves the
    size where it is. Slow and fast are what the code tests: the
    quotient [uploadTimeMs / targetTime], rounded to a double, above
    [1.5] or below [0.5]. *)
Theorem tcp_congestion_response a u1 u2 :
  0 <= r_minSize (options a) ->
  r_minSize (options a) <= currentSize a ->
  currentSize a <= r_maxSize (options a) ->
  0 <= u1 -> (3 # 2) < round_double (u1 / r_targetTime (options a)) ->
  0 <= u2 -> round_double (u2 / r_targetTime (options a)) < (1 # 2) ->
  let a1 := snd (adjust u1 a) in
  let a2 := snd (adjust u2 a1) in
  getState a1 = FAST_RECOVERY
  /\ getSsthresh a1 = Qmax (r_minSize (options a)) (floor (currentSize a / 2))
  /\ getCurrentSize a1 == getSsthresh a1
  /\ getState a2 = CONGESTION_AVOIDANCE
  /\ getSsthresh a2 = getSsthresh a1
  /\ getCurrentSize a2 == getCurrentSize a1.
Proof.
  intros Hm Hlo Hhi Hu1 Hs Hu2 Hf. cbn zeta.
  assert (snd (adjust u1 a)
          = clamp (handleSlowUpload
                     (set_counters 0 (consecutiveSlowUploads a + 1) a))) as E1.
  { unfold adjust.
    assert (ltb u1 0 = false) as -> by (by apply ltb_false).
    assert (ltb (round_double (u1 / r_targetTime (options a))) (1 # 2) = false) as ->
      by (apply ltb_false; lra).
    by assert (ltb (3 # 2) (round_double (u1 / r_targetTime (options a))) = true) as ->
      by (by apply ltb_true). }
  rewrite E1.
  set (a1 := clamp (handleSlowUpload _)).
  assert (options a1 = options a) as Ho by done.
  assert (state a1 = FAST_RECOVERY) as Hst by done.
  assert (ssthresh a1 = Qmax (r_minSize (options a)) (floor (currentSize a / 2)))
    as Hss by done.
  assert (floor (currentSize a / 2) <= r_maxSize (options a)) as Hfl.
  { pose proof (floor_le (currentSize a / 2)) as Hle.
    assert (currentSize a / 2 == currentSize a * (1 # 2)) as Hh by reflexivity.
    lra. }
  assert (currentSize a1 == ssthresh a1) as Hcs.
  { rewrite Hss. subst a1. cbn.
    apply clamp_in_bounds_id; [apply Q.le_max_l|].
    apply Q.max_lub; [lra | done]. }
  clearbody a1.
  assert (snd (adjust u2 a1)
          = clamp (handleFastUpload
                     (set_counters (consecutiveFastUploads a1 + 1) 0 a1))) as E2.
  { unfold adjust.
    assert (ltb u2 0 = false) as -> by (by apply ltb_false).
    rewrite Ho.
    by assert (ltb (round_double (u2 / r_targetTime (options a))) (1 # 2) = true) as ->
      by (by apply ltb_true). }
  rewrite E2. unfold getState, getSsthresh, getCurrentSize.
  split; [done|]. split; [done|]. split; [done|].
  unfold handleFastUpload. cbn [state set_counters]. rewrite Hst. cbn.
  split; [done|]. split; [done|].
  rewrite Ho. apply clamp_in_bounds_id.
  - rewrite Hcs, Hss. apply Q.le_max_l.
  - rewrite Hcs, Hss. apply Q.max_lub; [lra | done].
Qed.

Lemma tcp_congestion_response_witness :
  getState (snd (adjust 9000 doc_adjuster)) = FAST_RECOVERY
  /\ getCurrentSize (snd (adjust 100 (snd (adjust 9000 doc_adjuster))))
     == getCurrentSize (snd (adjust 9000 doc_adjuster)).
Proof.
  assert (0 <= r_minSize (options doc_adjuster)) as H0 by (by vm_compute).
  assert (r_minSize (options doc_adjuster) <= currentSize doc_adjuster) as Hlo
    by (by vm_compute).
  assert (currentSize doc_adjuster <= r_maxSize (options doc_adjuster)) as Hhi
    by (by vm_compute).
  assert (0 <= 9000) as Hu1 by (by vm_compute).
  assert ((3 # 2) < round_double (9000 / r_targetTime (options doc_adjuster))) as Hs
    by (by vm_compute).
  assert (0 <= 100) as Hu2 by (by vm_compute).
  assert (round_double (100 / r_targetTime (options doc_adjuster)) < (1 # 2)) as Hf
    by (by vm_compute).
  destruct (tcp_congestion_response doc_adjuster 9000 100 H0 Hlo Hhi Hu1 Hs Hu2 Hf)
    as (H1 & _ & _ & _ & _ & H6).
  split; [exact H1 | exact H6].
Defined.

(** At the edge of the slow test the quotient decides, not the exact
    ratio: 1500.15 ms against a target of 1000.1 ms is more than one and
    a half times the target, but the quotient of the two doubles is
    [1.5], so the upload counts as normal. *)
Example tcp_ratio_rounded :
  let a := {| currentSize := 1048576; ssthresh := 5242880; state := SLOW_START;
              options := {| r_initialSize := 1048576; r_minSize := 262144;
                            r_maxSize := 10485760; r_targetTime := double_1000_1;
                            r_initialSsthresh := 5242880 |};
              consecutiveFastUploads := 0; consecutiveSlowUploads := 0 |} in
  (3 # 2) < double_1500_15 / double_1000_1
  /\ adjust double_1500_15 a = (Ok 1048576, a).
Proof. split; by vm_compute. Qed.

End TCPChunkSizeAdjuster.

(** ** JavaScript values shared by the client modules *)

(** The double-quote character, for messages that quote a name. *)
Definition dquote : string := String (Ascii.ascii_of_nat 34) EmptyString.

(** Rendering of an integral number in a template literal. *)
Definition Number_toString (z : Z) : string :=
  NilZero.string_of_int (Z.to_int z).

(** The browser's [File], without its bytes. *)
Module File.
Record t : Type := mk {
  name : string;
  size : Z;
  type : string;
  lastModified : Z
}.
End File.

(** ** UploadStorage: the IndexedDB store of upload records *)

Module UploadStorage.

Record FileInfo : Type := mkFileInfo {
  name : string;
  size : Z;
  type : string;
  hash : option string;
  lastModified : Z
}.

Record UploadRecord : Type := mkRecord {
  taskId : string;
  fileInfo : FileInfo;
  uploadedChunks : list Z;
  uploadToken : string;
  createdAt : Z;
  updatedAt : Z
}.

(** [Partial<UploadRecord>]: every key may be absent. *)
Record PartialUploadRecord : Type := mkPartial {
  p_taskId : option string;
  p_fileInfo : option FileInfo;
  p_uploadedChunks : option (list Z);
  p_uploadToken : option string;
  p_createdAt : option Z;
  p_updatedAt : option Z
}.

(** The patch [{}]. *)
Definition empty_patch : PartialUploadRecord :=
  {| p_taskId := None; p_fileInfo := None; p_uploadedChunks := None;
     p_uploadToken := None; p_createdAt := None; p_updatedAt := None |}.

Inductive StorageErrorCode : Type :=
| QUOTA_EXCEEDED
| STORAGE_UNAVAILABLE
| OPERATION_FAILED.

Record StorageError : Type := mkStorageError {
  message : string;
  code : StorageErrorCode
}.

(** The object store "uploads" of the database "chunkflow-upload",
    created with [keyPath: "taskId"]: a map from [taskId] to the record
    stored under it. It lives in the browser, outside the
    [UploadStorage] object. *)
Abbreviation ObjectStore := (gmap string UploadRecord).

(** What the browser does with one request: [onsuccess], [onerror] with
    the request's [error.name] and [error.message], or an exception
    thrown while the transaction is set up (caught by the [try]). A
    request error reaches [transaction.onerror] only after
    [request.onerror] has rejected the promise. *)
Inductive IDBOutcome : Type :=
| RequestSucceeds
| RequestFails (errorName errorMessage : string)
| TransactionThrows (errorMessage : string).

Inductive IDBDatabase : Type := Connection.

(** The object: [private db] and [private isSupported]. *)
Record t : Type := mkStorage {
  db : option IDBDatabase;
  isSupported : bool
}.

(** A promise over the object store: it resolves or rejects, and leaves
    the store in some state. *)
Definition Promise (A : Type) : Type :=
  ObjectStore -> result StorageError A * ObjectStore.

Definition resolve {A} (a : A) : Promise A := fun st => (Ok a, st).
Definition reject {A} (m : string) (c : StorageErrorCode) : Promise A :=
  fun st => (Throw {| message := m; code := c |}, st).
(** [await p; k] *)
Definition await {A B} (p : Promise A) (k : A -> Promise B) : Promise B :=
  fun st =>
    match p st with
    | (Ok a, st') => k a st'
    | (Throw e, st') => (Throw e, st')
    end.

Notation "x <- p ;; k" := (await p (fun x => k))
  (at level 100, p at next level, right associativity).

(** [constructor()]: [supported] tells whether [indexedDB] is defined. *)
Definition new (supported : bool) : t :=
  {| db := None; isSupported := supported |}.

(** [isAvailable()] *)
Definition isAvailable (this : t) : bool :=
  isSupported this && bool_decide (db this <> None).

(** [init()]: the open request succeeds or fails. *)
Definition init (o : IDBOutcome) (this : t) : result StorageError unit * t :=
  if negb (isSupported this) then
    (Throw {| message := "IndexedDB is not supported"; code := STORAGE_UNAVAILABLE |},
     this)
  else
    match o with
    | RequestSucceeds =>
        (Ok tt, {| db := Some Connection; isSupported := isSupported this |})
    | RequestFails _ m =>
        (Throw {| message := "Failed to open database: " +:+ m;
                  code := STORAGE_UNAVAILABLE |}, this)
    | TransactionThrows m =>
        (Throw {| message := "Failed to initialize storage: " +:+ m;
                  code := STORAGE_UNAVAILABLE |}, this)
    end.

(** [close()] *)
Definition close (this : t) : t :=
  {| db := None; isSupported := isSupported this |}.

(** The guard that opens every operation:
    [if (!this.isSupported || !this.db) throw ...]. *)
Definition not_initialized (this : t) : bool :=
  negb (isSupported this) || bool_decide (db this = None).

(** [saveRecord(record)]: [objectStore.put(record)]. *)
Definition saveRecord (o : IDBOutcome) (record : UploadRecord) (this : t)
  : Promise unit :=
  if not_initialized this then
    reject "Storage is not initialized" STORAGE_UNAVAILABLE
  else
    match o with
    | RequestSucceeds => fun st => (Ok tt, <[taskId record := record]> st)
    | RequestFails n m =>
        if String.eqb n "QuotaExceededError" then
          reject "Storage quota exceeded" QUOTA_EXCEEDED
        else reject ("Failed to save record: " +:+ m) OPERATION_FAILED
    | TransactionThrows m =>
        reject ("Failed to save record: " +:+ m) OPERATION_FAILED
    end.

(** [getRecord(taskId)]: [objectStore.get(taskId)], [undefined] read as
    [null]. *)
Definition getRecord (o : IDBOutcome) (taskId : string) (this : t)
  : Promise (option UploadRecord) :=
  if not_initialized this then
    reject "Storage is not initialized" STORAGE_UNAVAILABLE
  else
    match o with
    | RequestSucceeds => fun st => (Ok (st !! taskId), st)
    | RequestFails _ m | TransactionThrows m =>
        reject ("Failed to get record: " +:+ m) OPERATION_FAILED
    end.

(** [deleteRecord(taskId)]: [objectStore.delete(taskId)]. *)
Definition deleteRecord (o : IDBOutcome) (taskId : string) (this : t)
  : Promise unit :=
  if not_initialized this then
    reject "Storage is not initialized" STORAGE_UNAVAILABLE
  else
    match o with
    | RequestSucceeds => fun st => (Ok tt, delete taskId st)
    | RequestFails _ m | TransactionThrows m =>
        reject ("Failed to delete record: " +:+ m) OPERATION_FAILED
    end.

(** The object spread [{ ...existingRecord, ...updates }]. *)
Definition spread (existing : UploadRecord) (updates : PartialUploadRecord)
  : UploadRecord :=
  {| taskId := default (taskId existing) (p_taskId updates);
     fileInfo := default (fileInfo existing) (p_fileInfo updates);
     uploadedChunks := default (uploadedChunks existing) (p_uploadedChunks updates);
     uploadToken := default (uploadToken existing) (p_uploadToken updates);
     createdAt := default (createdAt existing) (p_createdAt updates);
     updatedAt := default (updatedAt existing) (p_updatedAt updates) |}.

Definition set_taskId (v : string) (r : UploadRecord) : UploadRecord :=
  {| taskId := v; fileInfo := fileInfo r; uploadedChunks := uploadedChunks r;
     uploadToken := uploadToken r; createdAt := createdAt r;
     updatedAt := updatedAt r |}.

Definition set_updatedAt (v : Z) (r : UploadRecord) : UploadRecord :=
  {| taskId := taskId r; fileInfo := fileInfo r; uploadedChunks := uploadedChunks r;
     uploadToken := uploadToken r; createdAt := createdAt r;
     updatedAt := v |}.

(** [updateRecord(taskId, updates)]; [now] is what [Date.now()] returns,
    [o_get] and [o_put] are the outcomes of the two requests. *)
Definition updateRecord (o_get o_put : IDBOutcome) (now : Z)
    (taskId : string) (updates : PartialUploadRecord) (this : t)
  : Promise unit :=
  if not_initialized this then
    reject "Storage is not initialized" STORAGE_UNAVAILABLE
  else
    existingRecord <- getRecord o_get taskId this ;;
    match existingRecord with
    | None =>
        reject ("Record with taskId " +:+ taskId +:+ " not found") OPERATION_FAILED
    | Some existingRecord =>
        let updatedRecord :=
          set_updatedAt now (set_taskId taskId (spread existingRecord updates)) in
        saveRecord o_put updatedRecord this
    end.

(** *** Properties *)

Lemma not_initialized_available this :
  not_initialized this = negb (isAvailable this).
Proof.
  unfold not_initialized, isAvailable.
  destruct (isSupported this), (db this); done.
Qed.

(** A successful [saveRecord] is a [put] under the record's [taskId]. *)
Lemma saveRecord_ok o r this st st' :
  saveRecord o r this st = (Ok tt, st') ->
  isAvailable this = true /\ st' = <[taskId r := r]> st.
Proof.
  unfold saveRecord. rewrite not_initialized_available.
  destruct (isAvailable this); cbn; [|done].
  destruct o as [|n m|m]; cbn.
  - by intros [= <-].
  - by destruct (String.eqb n _).
  - done.
Qed.

(** C6: on an initialized storage, [saveRecord(r)] whose request the
    store serves resolves, and [getRecord(r.taskId)] then resolves with
    [r] and leaves the store as the save left it; more generally, after
    any [saveRecord(r)] that has resolved, [getRecord(r.taskId)]
    resolves with [r]. *)
Theorem saveRecord_getRecord r this st :
  isAvailable this = true ->
  exists st',
    saveRecord RequestSucceeds r this st = (Ok tt, st')
    /\ getRecord RequestSucceeds (taskId r) this st' = (Ok (Some r), st')
    /\ (forall o st'', saveRecord o r this st = (Ok tt, st'') ->
          getRecord RequestSucceeds (taskId r) this st'' = (Ok (Some r), st'')).
Proof.
  intros Hav.
  assert (forall o st'', saveRecord o r this st = (Ok tt, st'') ->
            getRecord RequestSucceeds (taskId r) this st'' = (Ok (Some r), st''))
    as Hget.
  { intros o st'' Hsave. destruct (saveRecord_ok _ _ _ _ _ Hsave) as [_ ->].
    unfold getRecord. rewrite not_initialized_available, Hav. cbn.
    by rewrite lookup_insert_eq. }
  assert (saveRecord RequestSucceeds r this st = (Ok tt, <[taskId r := r]> st))
    as Hsave.
  { unfold saveRecord. by rewrite not_initialized_available, Hav. }
  exists (<[taskId r := r]> st). split; [exact Hsave|].
  split; [by apply (Hget RequestSucceeds) | exact Hget].
Qed.

Definition ready : t := {| db := Some Connection; isSupported := true |}.

(** The record of the storage tests ("task-1", three chunks uploaded). *)
Definition task1 : UploadRecord :=
  {| taskId := "task-1";
     fileInfo := {| name := "test.txt"; size := 1024; type := "text/plain";
                    hash := None; lastModified := 1762000000000 |};
     uploadedChunks := [0; 1; 2]%Z;
     uploadToken := "token-123";
     createdAt := 1762000000000;
     updatedAt := 1762000000000 |}.

Lemma saveRecord_getRecord_witness :
  exists st',
    saveRecord RequestSucceeds task1 ready ∅ = (Ok tt, st')
    /\ getRecord RequestSucceeds "task-1" ready st' = (Ok (Some task1), st').
Proof.
  destruct (saveRecord_getRecord task1 ready ∅) as (st' & Hsave & Hget & _);
    [reflexivity|].
  exists st'. split; [exact Hsave | exact Hget].
Defined.

(** A record whose [updatedAt] is ahead of the clock read by the update
    (saved before the system clock was set back, or with a timestamp
    from another machine). *)
Definition task_ahead : UploadRecord := set_updatedAt 1800000000000 task1.

(** C5, as stated, fails on the timestamp: [updateRecord] stamps
    [Date.now()] whatever the stored [updatedAt] is. With the stored
    [updatedAt = 1800000000000] and the clock at [1762000000000], the
    record read back has a smaller [updatedAt] than the one saved. *)
Lemma updateRecord_stamp_not_monotone :
  exists st1 st2 r',
    saveRecord RequestSucceeds task_ahead ready ∅ = (Ok tt, st1)
    /\ updateRecord RequestSucceeds RequestSucceeds 1762000000000
         (taskId task_ahead) empty_patch ready st1 = (Ok tt, st2)
    /\ getRecord RequestSucceeds (taskId task_ahead) ready st2 = (Ok (Some r'), st2)
    /\ (updatedAt r' < updatedAt task_ahead)%Z.
Proof.
  eexists _, _, _. split; [reflexivity|].
  split.
  { unfold updateRecord, await, getRecord. cbn.
    rewrite lookup_insert_eq. reflexivity. }
  split; [cbn; by rewrite lookup_insert_eq|].
  reflexivity.
Qed.

(** C5 (amended): for a record [r] stored under its [taskId] and any
    patch [p], [updateRecord(r.taskId, p)] writes back a record that
    keeps every field of [r] absent from [p], takes the fields present
    in [p], keeps [taskId] equal to [r.taskId] whatever [p] supplies,
    and carries the clock reading [now] as [updatedAt], which is at
    least [r.updatedAt] whenever [r.updatedAt <= now]. Other records
    are untouched. With the empty patch the record read back is [r]
    with [updatedAt] replaced by [now]. *)
Theorem updateRecord_frame this st r p now :
  isAvailable this = true ->
  st !! taskId r = Some r ->
  exists r',
    updateRecord RequestSucceeds RequestSucceeds now (taskId r) p this st
      = (Ok tt, <[taskId r := r']> st)
    /\ getRecord RequestSucceeds (taskId r) this (<[taskId r := r']> st)
      = (Ok (Some r'), <[taskId r := r']> st)
    /\ taskId r' = taskId r
    /\ updatedAt r' = now
    /\ ((updatedAt r <= now)%Z -> (updatedAt r <= updatedAt r')%Z)
    /\ fileInfo r' = default (fileInfo r) (p_fileInfo p)
    /\ uploadedChunks r' = default (uploadedChunks r) (p_uploadedChunks p)
    /\ uploadToken r' = default (uploadToken r) (p_uploadToken p)
    /\ createdAt r' = default (createdAt r) (p_createdAt p)
    /\ (p = empty_patch -> r' = set_updatedAt now r).
Proof.
  intros Hav Hr.
  exists (set_updatedAt now (set_taskId (taskId r) (spread r p))).
  assert (not_initialized this = false) as Hni
    by (by rewrite not_initialized_available, Hav).
  split.
  { unfold updateRecord, await, getRecord, saveRecord. rewrite Hni, Hr. done. }
  split.
  { unfold getRecord. rewrite Hni. cbn. by rewrite lookup_insert_eq. }
  repeat split; try done.
  intros ->. by destruct r.
Qed.

Lemma updateRecord_frame_witness :
  exists r',
    updateRecord RequestSucceeds RequestSucceeds 1762000005000 "task-1"
        empty_patch ready (<["task-1" := task1]> ∅)
      = (Ok tt, <["task-1" := r']> (<["task-1" := task1]> ∅))
    /\ taskId r' = "task-1"
    /\ updatedAt r' = 1762000005000%Z
    /\ (updatedAt task1 <= updatedAt r')%Z
    /\ r' = set_updatedAt 1762000005000 task1.
Proof.
  destruct (updateRecord_frame ready (<["task-1" := task1]> ∅) task1
              empty_patch 1762000005000 eq_refl (lookup_insert_eq _ _ _))
    as (r' & Hupd & _ & Hid & Hts & Hle & _ & _ & _ & _ & Hempty).
  exists r'. split; [exact Hupd|]. split; [exact Hid|]. split; [exact Hts|].
  split; [apply Hle; by vm_compute | by apply Hempty].
Defined.

(** *** The remaining operations of the store *)

(** [getAllRecords()]: [objectStore.getAll()], [undefined] read as the
    empty array. The browser lists the records by ascending key; the
    list here follows the map, and only what does not depend on the
    order is proved of it. *)
Definition getAllRecords (o : IDBOutcome) (this : t) : Promise (list UploadRecord) :=
  if not_initialized this then
    reject "Storage is not initialized" STORAGE_UNAVAILABLE
  else
    match o with
    | RequestSucceeds => fun st => (Ok (snd <$> map_to_list st), st)
    | RequestFails _ m | TransactionThrows m =>
        reject ("Failed to get all records: " +:+ m) OPERATION_FAILED
    end.

(** [clearAll()]: [objectStore.clear()]. *)
Definition clearAll (o : IDBOutcome) (this : t) : Promise unit :=
  if not_initialized this then
    reject "Storage is not initialized" STORAGE_UNAVAILABLE
  else
    match o with
    | RequestSucceeds => fun _ => (Ok tt, ∅)
    | RequestFails _ m | TransactionThrows m =>
        reject ("Failed to clear records: " +:+ m) OPERATION_FAILED
    end.

Definition not_initialized_error : StorageError :=
  {| message := "Storage is not initialized"; code := STORAGE_UNAVAILABLE |}.

(** Before [init()] has succeeded, and after [close()], every operation
    rejects with [STORAGE_UNAVAILABLE] and leaves the store alone,
    whatever the browser would have answered. *)
Theorem unavailable_storage_rejects this st :
  isAvailable this = false ->
  (forall o r, saveRecord o r this st = (Throw not_initialized_error, st))
  /\ (forall o k, getRecord o k this st = (Throw not_initialized_error, st))
  /\ (forall o1 o2 now k p,
        updateRecord o1 o2 now k p this st = (Throw not_initialized_error, st))
  /\ (forall o k, deleteRecord o k this st = (Throw not_initialized_error, st))
  /\ (forall o, getAllRecords o this st = (Throw not_initialized_error, st))
  /\ (forall o, clearAll o this st = (Throw not_initialized_error, st))
  /\ (forall that, isAvailable (close that) = false)
  /\ isAvailable (new true) = false.
Proof.
  intros Hav.
  assert (not_initialized this = true) as Hni
    by (by rewrite not_initialized_available, Hav).
  unfold saveRecord, getRecord, updateRecord, deleteRecord, getAllRecords, clearAll.
  rewrite Hni. repeat split; try done.
  intros that. unfold isAvailable, close. cbn. by destruct (isSupported that).
Qed.

Lemma unavailable_storage_rejects_witness :
  saveRecord RequestSucceeds task1 (new true) ∅ = (Throw not_initialized_error, ∅)
  /\ getRecord RequestSucceeds "task-1" (close ready) (<["task-1" := task1]> ∅)
     = (Throw not_initialized_error, <["task-1" := task1]> ∅).
Proof.
  split.
  - by apply (unavailable_storage_rejects (new true) ∅ eq_refl).
  - by apply (unavailable_storage_rejects (close ready) (<["task-1" := task1]> ∅) eq_refl).
Defined.

(** A rejected operation never changes the store: the writes are all or
    nothing, also for [updateRecord] with its two requests. *)
Theorem rejected_leaves_store this st e st' :
  (forall o r, saveRecord o r this st = (Throw e, st') -> st' = st)
  /\ (forall o k, getRecord o k this st = (Throw e, st') -> st' = st)
  /\ (forall o1 o2 now k p,
        updateRecord o1 o2 now k p this st = (Throw e, st') -> st' = st)
  /\ (forall o k, deleteRecord o k this st = (Throw e, st') -> st' = st)
  /\ (forall o, getAllRecords o this st = (Throw e, st') -> st' = st)
  /\ (forall o, clearAll o this st = (Throw e, st') -> st' = st).
Proof.
  assert (forall o r st0, saveRecord o r this st0 = (Throw e, st') -> st' = st0) as Hsave.
  { intros o r st0. unfold saveRecord, reject.
    destruct (not_initialized this); [by intros [= _ <-]|].
    destruct o as [|n m|m]; [done| |by intros [= _ <-]].
    destruct (String.eqb n _); by intros [= _ <-]. }
  assert (forall o k st0 res st1,
            getRecord o k this st0 = (res, st1) -> st1 = st0) as Hget.
  { intros o k st0 res st1. unfold getRecord, reject.
    destruct (not_initialized this); [by intros [= _ <-]|].
    destruct o; by intros [= _ <-]. }
  split; [intros o r; apply Hsave|].
  split; [intros o k; apply Hget|].
  split.
  { intros o1 o2 now k p. unfold updateRecord, await.
    destruct (not_initialized this); [unfold reject; by intros [= _ <-]|].
    destruct (getRecord o1 k this st) as [[[ex|]|e'] st1] eqn:Hg;
      apply Hget in Hg; subst st1.
    - apply Hsave.
    - unfold reject. by intros [= _ <-].
    - by intros [= _ <-]. }
  split.
  { intros o k. unfold deleteRecord, reject.
    destruct (not_initialized this); [by intros [= _ <-]|].
    destruct o; [done|by intros [= _ <-]..]. }
  split.
  { intros o. unfold getAllRecords, reject.
    destruct (not_initialized this); [by intros [= _ <-]|].
    destruct o; [done|by intros [= _ <-]..]. }
  intros o. unfold clearAll, reject.
  destruct (not_initialized this); [by intros [= _ <-]|].
  destruct o; [done|by intros [= _ <-]..].
Qed.

(** [deleteRecord] removes the record ([getRecord] then resolves with
    [null]) and nothing else; deleting a [taskId] that is not stored
    resolves as well and leaves the store as it was. *)
Theorem deleteRecord_removes this st k :
  isAvailable this = true ->
  exists st',
    deleteRecord RequestSucceeds k this st = (Ok tt, st')
    /\ getRecord RequestSucceeds k this st' = (Ok None, st')
    /\ (forall k', k' <> k ->
          getRecord RequestSucceeds k' this st' = (Ok (st !! k'), st'))
    /\ (st !! k = None -> st' = st).
Proof.
  intros Hav.
  assert (not_initialized this = false) as Hni
    by (by rewrite not_initialized_available, Hav).
  exists (delete k st). unfold deleteRecord, getRecord. rewrite Hni.
  split; [done|]. split; [by rewrite lookup_delete_eq|].
  split; [intros k' Hne; by rewrite lookup_delete_ne|].
  apply delete_id.
Qed.

Lemma deleteRecord_removes_witness :
  exists st',
    deleteRecord RequestSucceeds "task-1" ready (<["task-1" := task1]> ∅) = (Ok tt, st')
    /\ getRecord RequestSucceeds "task-1" ready st' = (Ok None, st').
Proof.
  destruct (deleteRecord_removes ready (<["task-1" := task1]> ∅) "task-1" eq_refl)
    as (st' & H1 & H2 & _).
  exists st'. split; [exact H1 | exact H2].
Defined.

(** [updateRecord] never creates a record: for a [taskId] that is not
    stored it rejects with [OPERATION_FAILED], naming the id, before any
    write is attempted. *)
Theorem updateRecord_missing this st o_put now k p :
  isAvailable this = true ->
  st !! k = None ->
  updateRecord RequestSucceeds o_put now k p this st
  = (Throw {| message := "Record with taskId " +:+ k +:+ " not found";
              code := OPERATION_FAILED |}, st).
Proof.
  intros Hav Hk.
  assert (not_initialized this = false) as Hni
    by (by rewrite not_initialized_available, Hav).
  unfold updateRecord, await, getRecord. by rewrite Hni, Hk.
Qed.

Lemma updateRecord_missing_witness :
  updateRecord RequestSucceeds RequestSucceeds 1762000005000 "non-existent"
    empty_patch ready ∅
  = (Throw {| message := "Record with taskId non-existent not found";
              code := OPERATION_FAILED |}, ∅).
Proof.
  apply (updateRecord_missing ready ∅ RequestSucceeds 1762000005000 "non-existent"
           empty_patch eq_refl).
  apply lookup_empty.
Defined.

(** [saveRecord] is an upsert: saving a second record under the same
    [taskId] replaces the first, the number of records stays the same,
    and the records under other ids are untouched. *)
Theorem saveRecord_overwrites this st r1 r2 :
  isAvailable this = true ->
  taskId r2 = taskId r1 ->
  exists st1 st2,
    saveRecord RequestSucceeds r1 this st = (Ok tt, st1)
    /\ saveRecord RequestSucceeds r2 this st1 = (Ok tt, st2)
    /\ getRecord RequestSucceeds (taskId r1) this st2 = (Ok (Some r2), st2)
    /\ stdpp.base.size st2 = stdpp.base.size st1
    /\ (forall k, k <> taskId r1 -> st2 !! k = st !! k).
Proof.
  intros Hav Hid.
  assert (not_initialized this = false) as Hni
    by (by rewrite not_initialized_available, Hav).
  exists (<[taskId r1 := r1]> st), (<[taskId r2 := r2]> (<[taskId r1 := r1]> st)).
  unfold saveRecord, getRecord. rewrite Hni, Hid.
  split; [done|]. split; [done|].
  split; [by rewrite lookup_insert_eq|].
  split.
  - rewrite insert_insert_eq.
    destruct (st !! taskId r1) as [r0|] eqn:E.
    + rewrite !map_size_insert_Some; [done| by rewrite E..].
    + by rewrite !map_size_insert_None.
  - intros k Hk. by rewrite !lookup_insert_ne.
Qed.

Lemma saveRecord_overwrites_witness :
  exists st1 st2,
    saveRecord RequestSucceeds task1 ready ∅ = (Ok tt, st1)
    /\ saveRecord RequestSucceeds task_ahead ready st1 = (Ok tt, st2)
    /\ getRecord RequestSucceeds "task-1" ready st2 = (Ok (Some task_ahead), st2)
    /\ stdpp.base.size st2 = stdpp.base.size st1.
Proof.
  destruct (saveRecord_overwrites ready ∅ task1 task_ahead eq_refl eq_refl)
    as (st1 & st2 & H1 & H2 & H3 & H4 & _).
  exists st1, st2. split; [exact H1|]. split; [exact H2|]. split; [exact H3 | exact H4].
Defined.

(** [getAllRecords] lists exactly the stored records, one entry per
    [taskId]; after [clearAll] the list is empty and every [getRecord]
    resolves with [null]. *)
Theorem getAllRecords_clearAll this st :
  isAvailable this = true ->
  exists l,
    getAllRecords RequestSucceeds this st = (Ok l, st)
    /\ length l = stdpp.base.size st
    /\ (forall r, r ∈ l <-> exists k, st !! k = Some r)
    /\ clearAll RequestSucceeds this st = (Ok tt, ∅)
    /\ getAllRecords RequestSucceeds this ∅ = (Ok [], ∅)
    /\ (forall k, getRecord RequestSucceeds k this ∅ = (Ok None, ∅)).
Proof.
  intros Hav.
  assert (not_initialized this = false) as Hni
    by (by rewrite not_initialized_available, Hav).
  exists (snd <$> map_to_list st).
  unfold getAllRecords, clearAll, getRecord. rewrite Hni.
  split; [done|].
  split; [by rewrite length_fmap, length_map_to_list|].
  split.
  { intros r. rewrite list_elem_of_fmap. split.
    - intros ([k r'] & -> & Hin). exists k. by apply elem_of_map_to_list.
    - intros (k & Hk). exists (k, r). split; [done|]. by apply elem_of_map_to_list. }
  split; [done|]. split; [by rewrite map_to_list_empty|].
  intros k. by rewrite lookup_empty.
Qed.

Lemma getAllRecords_clearAll_witness :
  exists l,
    getAllRecords RequestSucceeds ready (<["task-1" := task1]> ∅) = (Ok l, <["task-1" := task1]> ∅)
    /\ length l = stdpp.base.size (<["task-1" := task1]> (∅ : gmap string UploadRecord))
    /\ clearAll RequestSucceeds ready (<["task-1" := task1]> ∅) = (Ok tt, ∅).
Proof.
  destruct (getAllRecords_clearAll ready (<["task-1" := task1]> ∅) eq_refl)
    as (l & H1 & H2 & _ & H4 & _).
  exists l. split; [exact H1|]. split; [exact H2 | exact H4].
Defined.

End UploadStorage.

(** ** UploadManager: resuming a persisted upload *)

Module UploadManager.

(** A thrown value: a plain [Error] or a [StorageError]. *)
Inductive JsError : Type :=
| Error (message : string)
| StorageErr (e : UploadStorage.StorageError).

(** The options object handed to [new UploadTask], without the request
    adapter (a capability with no state of its own here). *)
Record UploadTaskOptions : Type := mkTaskOptions {
  file : File.t;
  chunkSize : Z;
  concurrency : Z;
  retryCount : Z;
  retryDelay : Z;
  autoStart : bool;
  resumeTaskId : option string;
  resumeUploadToken : option string;
  resumeUploadedChunks : option (list Z)
}.

(** [Partial<UploadTaskOptions>], the optional third argument. *)
Record PartialTaskOptions : Type := mkPartialTaskOptions {
  o_chunkSize : option Z;
  o_concurrency : option Z;
  o_retryCount : option Z;
  o_retryDelay : option Z;
  o_autoStart : option bool
}.

(** Modelled from the spec: the [UploadTask] class (upload-task.ts) is
    not among the sources. Section 4.7: [id] is unique and generated at
    construction, and a task given [resumeTaskId] reuses the existing
    id, seeds the token and excludes the given indices from scheduling.
    A task is kept as its construction options, its id and the events
    the manager listens to. *)
Record UploadTask : Type := mkTask {
  id : string;
  taskOptions : UploadTaskOptions;
  listeners : list string
}.

Definition new_UploadTask (generatedId : string) (o : UploadTaskOptions)
  : UploadTask :=
  {| id := default generatedId (resumeTaskId o);
     taskOptions := o;
     listeners := [] |}.

(** A registered plugin: its name and the hooks it implements. *)
Record Plugin : Type := mkPlugin {
  name : string;
  hooks : list string
}.

Record UploadManagerOptions : Type := mkManagerOptions {
  maxConcurrentTasks : Z;
  defaultChunkSize : Z;
  defaultConcurrency : Z;
  autoResumeUnfinished : bool
}.

(** The object: task registry, options, storage handle, flag, plugins. *)
Record t : Type := mkManager {
  tasks : gmap string UploadTask;
  options : UploadManagerOptions;
  storage : UploadStorage.t;
  initialized : bool;
  plugins : list Plugin
}.

(** What the manager acts on outside itself: the IndexedDB object store,
    the hook calls received by plugins (plugin, hook, task id) and the
    console. *)
Record World : Type := mkWorld {
  idb : gmap string UploadStorage.UploadRecord;
  hookCalls : list (string * string * string);
  console : list string
}.

Definition set_idb (st : gmap string UploadStorage.UploadRecord) (w : World) : World :=
  {| idb := st; hookCalls := hookCalls w; console := console w |}.

Definition set_tasks (m : gmap string UploadTask) (this : t) : t :=
  {| tasks := m; options := options this; storage := storage this;
     initialized := initialized this; plugins := plugins this |}.

(** [callPluginHook(hookName, task)]: every plugin that implements the
    hook is called, in registration order; what a hook throws is caught
    and logged, so the loop always reaches the end. *)
Definition callPluginHook (hookName : string) (task : UploadTask)
    (this : t) (w : World) : World :=
  {| idb := idb w;
     hookCalls :=
       hookCalls w ++
       ((λ p, (name p, hookName, id task)) <$>
          filter (λ p, hookName ∈ hooks p) (plugins this));
     console := console w |}.

(** [setupTaskPluginHooks(task)]: one listener per lifecycle event. *)
Definition setupTaskPluginHooks (task : UploadTask) : UploadTask :=
  {| id := id task; taskOptions := taskOptions task;
     listeners := listeners task ++
       ["start"; "progress"; "success"; "error"; "pause"; "resume"; "cancel"] |}.

(** [resumeTask(taskId, file, options?)]. [o_get] and [o_del] are the
    outcomes of the two storage requests, [generatedId] the id a task
    would generate for itself. The result comes with the manager and
    the world after the call. *)
Definition resumeTask (o_get o_del : UploadStorage.IDBOutcome)
    (generatedId : string) (taskId : string) (file : File.t)
    (opts : option PartialTaskOptions) (this : t) (w : World)
  : result JsError UploadTask * t * World :=
  if negb (UploadStorage.isAvailable (storage this)) then
    (Throw (Error "Storage is not available - cannot resume task"), this, w)
  else
    match UploadStorage.getRecord o_get taskId (storage this) (idb w) with
    | (Throw e, st) => (Throw (StorageErr e), this, set_idb st w)
    | (Ok None, st) =>
        (Throw (Error ("No unfinished task found with ID: " +:+ taskId)),
         this, set_idb st w)
    | (Ok (Some record), st) =>
        let w := set_idb st w in
        let info := UploadStorage.fileInfo record in
        if negb (String.eqb (File.name file) (UploadStorage.name info)) then
          (Throw (Error ("File name mismatch: expected " +:+ dquote
                         +:+ UploadStorage.name info +:+ dquote +:+ ", got "
                         +:+ dquote +:+ File.name file +:+ dquote)),
           this, w)
        else if negb (Z.eqb (File.size file) (UploadStorage.size info)) then
          (Throw (Error ("File size mismatch: expected "
                         +:+ Number_toString (UploadStorage.size info)
                         +:+ ", got " +:+ Number_toString (File.size file))),
           this, w)
        else if negb (String.eqb (File.type file) (UploadStorage.type info)) then
          (Throw (Error ("File type mismatch: expected " +:+ dquote
                         +:+ UploadStorage.type info +:+ dquote +:+ ", got "
                         +:+ dquote +:+ File.type file +:+ dquote)),
           this, w)
        else
          let task := new_UploadTask generatedId
            {| file := file;
               chunkSize := default (defaultChunkSize (options this))
                              (opts ≫= o_chunkSize);
               concurrency := default (defaultConcurrency (options this))
                                (opts ≫= o_concurrency);
               retryCount := default 3%Z (opts ≫= o_retryCount);
               retryDelay := default 1000%Z (opts ≫= o_retryDelay);
               autoStart := default false (opts ≫= o_autoStart);
               resumeTaskId := Some taskId;
               resumeUploadToken := Some (UploadStorage.uploadToken record);
               resumeUploadedChunks := Some (UploadStorage.uploadedChunks record) |} in
          let this' := set_tasks (<[id task := task]> (tasks this)) this in
          let w := callPluginHook "onTaskCreated" task this' w in
          let task' := setupTaskPluginHooks task in
          let this' := set_tasks (<[id task := task']> (tasks this')) this' in
          match UploadStorage.deleteRecord o_del taskId (storage this') (idb w) with
          | (Ok _, st) => (Ok task', this', set_idb st w)
          | (Throw e, st) =>
              (Ok task', this',
               {| idb := st; hookCalls := hookCalls w;
                  console := console w ++
                    ["Failed to delete old storage record for task " +:+ taskId] |})
          end
    end.

(** [getTaskCount()] *)
Definition getTaskCount (this : t) : nat := size (tasks this).

(** *** Properties *)

Lemma set_idb_same w : set_idb (idb w) w = w.
Proof. by destruct w. Qed.

Definition name_mismatch (record : UploadStorage.UploadRecord) (f : File.t) : string :=
  "File name mismatch: expected " +:+ dquote
    +:+ UploadStorage.name (UploadStorage.fileInfo record) +:+ dquote
    +:+ ", got " +:+ dquote +:+ File.name f +:+ dquote.

Definition size_mismatch (record : UploadStorage.UploadRecord) (f : File.t) : string :=
  "File size mismatch: expected "
    +:+ Number_toString (UploadStorage.size (UploadStorage.fileInfo record))
    +:+ ", got " +:+ Number_toString (File.size f).

Definition type_mismatch (record : UploadStorage.UploadRecord) (f : File.t) : string :=
  "File type mismatch: expected " +:+ dquote
    +:+ UploadStorage.type (UploadStorage.fileInfo record) +:+ dquote
    +:+ ", got " +:+ dquote +:+ File.type f +:+ dquote.

(** C7: with the record of [taskId] in the store, a re-selected file
    that differs from the stored [FileInfo] makes [resumeTask] throw the
    error of the first differing attribute (name, then size, then type):
    "File name mismatch: ...", "File size mismatch: expected X, got Y"
    or "File type mismatch: ..."; the manager, and so its task registry,
    and the store are as before the call. *)
Theorem resumeTask_mismatch o_del generatedId taskId f opts this w record :
  UploadStorage.isAvailable (storage this) = true ->
  idb w !! taskId = Some record ->
  (File.name f ≠ UploadStorage.name (UploadStorage.fileInfo record)
   \/ File.size f ≠ UploadStorage.size (UploadStorage.fileInfo record)
   \/ File.type f ≠ UploadStorage.type (UploadStorage.fileInfo record)) ->
  exists msg,
    resumeTask UploadStorage.RequestSucceeds o_del generatedId taskId f opts this w
      = (Throw (Error msg), this, w)
    /\ tasks (snd (fst (resumeTask UploadStorage.RequestSucceeds o_del generatedId
                          taskId f opts this w))) = tasks this
    /\ (if decide (File.name f ≠ UploadStorage.name (UploadStorage.fileInfo record))
        then msg = name_mismatch record f
             /\ String.prefix "File name mismatch" msg = true
        else if decide (File.size f ≠ UploadStorage.size (UploadStorage.fileInfo record))
        then msg = size_mismatch record f
             /\ String.prefix "File size mismatch" msg = true
        else msg = type_mismatch record f
             /\ String.prefix "File type mismatch" msg = true).
Proof.
  intros Hav Hrec Hdiff.
  unfold resumeTask. rewrite Hav.
  unfold UploadStorage.getRecord.
  rewrite UploadStorage.not_initialized_available, Hav.
  cbn [negb]. cbv beta iota. rewrite Hrec, set_idb_same. cbv zeta.
  destruct (decide (File.name f ≠ _)) as [Hn|Hn].
  { apply String.eqb_neq in Hn. rewrite Hn. eexists. by repeat split. }
  apply dec_stable in Hn. pose proof Hn as Hn'. apply String.eqb_eq in Hn'.
  rewrite Hn'. cbn [negb].
  destruct (decide (File.size f ≠ _)) as [Hs|Hs].
  { apply Z.eqb_neq in Hs. rewrite Hs. eexists. by repeat split. }
  apply dec_stable in Hs. pose proof Hs as Hs'. apply Z.eqb_eq in Hs'.
  rewrite Hs'. cbn [negb].
  destruct Hdiff as [?|[?|Ht]]; [done|done|].
  apply String.eqb_neq in Ht. rewrite Ht. eexists. by repeat split.
Qed.

(** The manager and the store of the resume tests: one stored record
    "task_123" for "test.txt", 1024 bytes, "text/plain". *)
Definition test_record : UploadStorage.UploadRecord :=
  {| UploadStorage.taskId := "task_123";
     UploadStorage.fileInfo :=
       {| UploadStorage.name := "test.txt"; UploadStorage.size := 1024;
          UploadStorage.type := "text/plain"; UploadStorage.hash := None;
          UploadStorage.lastModified := 1762000000000 |};
     UploadStorage.uploadedChunks := [0%Z];
     UploadStorage.uploadToken := "mock-token";
     UploadStorage.createdAt := 1762000000000;
     UploadStorage.updatedAt := 1762000000000 |}.

Definition test_manager : t :=
  {| tasks := ∅;
     options := {| maxConcurrentTasks := 3; defaultChunkSize := 1048576;
                   defaultConcurrency := 3; autoResumeUnfinished := true |};
     storage := UploadStorage.ready;
     initialized := true;
     plugins := [] |}.

Definition test_world : World :=
  {| idb := {[ "task_123" := test_record ]}; hookCalls := []; console := [] |}.

Definition bigger_file : File.t :=
  {| File.name := "test.txt"; File.size := 2048; File.type := "text/plain";
     File.lastModified := 1762000000000 |}.

Lemma resumeTask_mismatch_witness :
  exists msg,
    resumeTask UploadStorage.RequestSucceeds UploadStorage.RequestSucceeds
        "task_new" "task_123" bigger_file None test_manager test_world
      = (Throw (Error msg), test_manager, test_world)
    /\ msg = "File size mismatch: expected 1024, got 2048".
Proof.
  destruct (resumeTask_mismatch UploadStorage.RequestSucceeds "task_new"
              "task_123" bigger_file None test_manager test_world test_record)
    as (msg & Hres & _ & Hmsg).
  - reflexivity.
  - apply lookup_singleton_eq.
  - right. left. by vm_compute.
  - exists msg. split; [exact Hres|].
    destruct (decide (File.name bigger_file ≠ _)) as [Hn|_]; [exfalso; by apply Hn|].
    destruct (decide (File.size bigger_file ≠ _)) as [_|Hs]; [apply Hmsg|].
    exfalso. apply Hs. by vm_compute.
Defined.

(** The resume path: the same stored record and a matching file. The task
    keeps the stored id, enters the registry, and the old record is
    deleted. *)
Example resumeTask_matching_file :
  ∃ task this' w',
    resumeTask UploadStorage.RequestSucceeds UploadStorage.RequestSucceeds
        "task_new" "task_123"
        {| File.name := "test.txt"; File.size := 1024; File.type := "text/plain";
           File.lastModified := 1762000009999 |}
        None test_manager test_world
      = (Ok task, this', w')
    ∧ id task = "task_123"
    ∧ resumeUploadedChunks (taskOptions task) = Some [0%Z]
    ∧ tasks this' !! "task_123" = Some task
    ∧ idb w' !! "task_123" = None.
Proof.
  eexists _, _, _. split; [by vm_compute|]. by vm_compute.
Qed.

(** *** The rest of the resume interface *)


Definition set_storage (st : UploadStorage.t) (this : t) : t :=
  {| tasks := tasks this; options := options this; storage := st;
     initialized := initialized this; plugins := plugins this |}.

Definition set_initialized (b : bool) (this : t) : t :=
  {| tasks := tasks this; options := options this; storage := storage this;
     initialized := b; plugins := plugins this |}.

Definition warn (line : string) (w : World) : World :=
  {| idb := idb w; hookCalls := hookCalls w; console := console w ++ [line] |}.

(** [loadUnfinishedTasks()]: reads the records and drops them; every
    error is swallowed. *)
Definition loadUnfinishedTasks (o_all : UploadStorage.IDBOutcome) (this : t)
    (w : World) : World :=
  if negb (UploadStorage.isAvailable (storage this)) then w
  else
    let '(_, st) := UploadStorage.getAllRecords o_all (storage this) (idb w) in
    set_idb st w.

(** [init()]: [o_init] is the outcome of opening the database, [o_all]
    that of reading the records. *)
Definition init (o_init o_all : UploadStorage.IDBOutcome) (this : t) (w : World)
  : t * World :=
  if initialized this then (this, w)
  else
    match UploadStorage.init o_init (storage this) with
    | (Ok _, storage') =>
        let this := set_storage storage' this in
        let w := if autoResumeUnfinished (options this)
                 then loadUnfinishedTasks o_all this w else w in
        (set_initialized true this, w)
    | (Throw _, storage') =>
        (set_initialized true (set_storage storage' this), w)
    end.

(** [isInitialized()] *)
Definition isInitialized (this : t) : bool := initialized this.

(** [clearAllUnfinishedTasks()]: the number of records cleared, 0 when
    the storage is unavailable or a request fails. *)
Definition clearAllUnfinishedTasks (o_all o_clear : UploadStorage.IDBOutcome)
    (this : t) (w : World) : nat * World :=
  if negb (UploadStorage.isAvailable (storage this)) then (0, w)
  else
    match UploadStorage.getAllRecords o_all (storage this) (idb w) with
    | (Throw _, st) => (0, warn "Failed to clear all unfinished tasks:" (set_idb st w))
    | (Ok records, st) =>
        let count := length records in
        match UploadStorage.clearAll o_clear (storage this) st with
        | (Throw _, st') =>
            (0, warn "Failed to clear all unfinished tasks:" (set_idb st' w))
        | (Ok _, st') => (count, set_idb st' w)
        end
    end.

(** [UploadStatus] of the protocol package. *)
Inductive UploadStatus : Type :=
| IDLE | HASHING | UPLOADING | PAUSED | SUCCESS | ERROR | CANCELLED.

Record Statistics : Type := mkStatistics {
  total : nat;
  idle : nat;
  uploading : nat;
  paused : nat;
  success : nat;
  error : nat;
  cancelled : nat
}.

(** One turn of the loop of [getStatistics]: the [switch] on the status,
    which has no case for "hashing". *)
Definition count_status (stats : Statistics) (status : UploadStatus) : Statistics :=
  match status with
  | IDLE => {| total := total stats; idle := S (idle stats);
               uploading := uploading stats; paused := paused stats;
               success := success stats; error := error stats;
               cancelled := cancelled stats |}
  | UPLOADING => {| total := total stats; idle := idle stats;
                    uploading := S (uploading stats); paused := paused stats;
                    success := success stats; error := error stats;
                    cancelled := cancelled stats |}
  | PAUSED => {| total := total stats; idle := idle stats;
                 uploading := uploading stats; paused := S (paused stats);
                 success := success stats; error := error stats;
                 cancelled := cancelled stats |}
  | SUCCESS => {| total := total stats; idle := idle stats;
                  uploading := uploading stats; paused := paused stats;
                  success := S (success stats); error := error stats;
                  cancelled := cancelled stats |}
  | ERROR => {| total := total stats; idle := idle stats;
                uploading := uploading stats; paused := paused stats;
                success := success stats; error := S (error stats);
                cancelled := cancelled stats |}
  | CANCELLED => {| total := total stats; idle := idle stats;
                    uploading := uploading stats; paused := paused stats;
                    success := success stats; error := error stats;
                    cancelled := S (cancelled stats) |}
  | HASHING => stats
  end.

(** [getStatistics()], on the statuses [getStatus()] returns for the
    tasks of the registry, in registry order. *)
Definition getStatistics (statuses : list UploadStatus) : Statistics :=
  fold_left count_status statuses
    {| total := length statuses; idle := 0; uploading := 0; paused := 0;
       success := 0; error := 0; cancelled := 0 |}.

#[global] Instance UploadStatus_eq_dec : EqDecision UploadStatus.
Proof. solve_decision. Defined.

(** How many tasks have a given status. *)
Definition count_of (status : UploadStatus) (statuses : list UploadStatus) : nat :=
  length (filter (λ s, s = status) statuses).

(** *** Further properties of the manager *)

(** The two guards of [resumeTask]: without an available storage it
    throws "Storage is not available - cannot resume task", and for a
    [taskId] without a stored record "No unfinished task found with ID:
    ..."; in both cases manager and world are as before. *)
Theorem resumeTask_guards o_get o_del generatedId taskId f opts this w :
  (UploadStorage.isAvailable (storage this) = false ->
     resumeTask o_get o_del generatedId taskId f opts this w
     = (Throw (Error "Storage is not available - cannot resume task"), this, w))
  /\ (UploadStorage.isAvailable (storage this) = true ->
      idb w !! taskId = None ->
      resumeTask UploadStorage.RequestSucceeds o_del generatedId taskId f opts this w
      = (Throw (Error ("No unfinished task found with ID: " +:+ taskId)), this, w)).
Proof.
  split.
  - intros Hav. unfold resumeTask. by rewrite Hav.
  - intros Hav Hnone. unfold resumeTask. rewrite Hav. cbn [negb].
    unfold UploadStorage.getRecord.
    rewrite UploadStorage.not_initialized_available, Hav. cbn [negb].
    cbv beta iota. by rewrite Hnone, set_idb_same.
Qed.

Lemma resumeTask_guards_witness :
  resumeTask UploadStorage.RequestSucceeds UploadStorage.RequestSucceeds
      "task_new" "non-existent-task" bigger_file None test_manager test_world
  = (Throw (Error "No unfinished task found with ID: non-existent-task"),
     test_manager, test_world)
  /\ resumeTask UploadStorage.RequestSucceeds UploadStorage.RequestSucceeds
      "task_new" "task_123" bigger_file None
      (set_storage (UploadStorage.new true) test_manager) test_world
  = (Throw (Error "Storage is not available - cannot resume task"),
     set_storage (UploadStorage.new true) test_manager, test_world).
Proof.
  split.
  - apply (resumeTask_guards UploadStorage.RequestSucceeds UploadStorage.RequestSucceeds
             "task_new" "non-existent-task" bigger_file None test_manager test_world);
      [reflexivity|]. by apply lookup_singleton_ne.
  - apply (resumeTask_guards UploadStorage.RequestSucceeds UploadStorage.RequestSucceeds
             "task_new" "task_123" bigger_file None
             (set_storage (UploadStorage.new true) test_manager) test_world).
    reflexivity.
Defined.








Lemma getAllRecords_store o this st :
  snd (UploadStorage.getAllRecords o this st) = st.
Proof.
  unfold UploadStorage.getAllRecords, UploadStorage.reject.
  destruct (UploadStorage.not_initialized this); [done|]. by destruct o.
Qed.

Lemma loadUnfinishedTasks_world o_all this w : loadUnfinishedTasks o_all this w = w.
Proof.
  unfold loadUnfinishedTasks.
  destruct (negb (UploadStorage.isAvailable (storage this))); [done|].
  pose proof (getAllRecords_store o_all (storage this) (idb w)) as H.
  destruct (UploadStorage.getAllRecords o_all (storage this) (idb w)) as [r st].
  cbn in H. subst st. apply set_idb_same.
Qed.

(** [init()] of the manager never fails and never touches tasks or
    records: whatever the outcome of opening the database and of reading
    the records, the manager ends up initialized with the same tasks,
    plugins and world, and a second [init()] changes nothing.  When the
    manager was not initialized, IndexedDB is supported and the open
    request succeeds, the storage is available afterwards; when IndexedDB
    is unsupported or the open request fails, the storage is as before. *)
Theorem manager_init_graceful o_init o_all this w :
  exists this',
    init o_init o_all this w = (this', w)
    /\ isInitialized this' = true
    /\ tasks this' = tasks this
    /\ plugins this' = plugins this
    /\ (forall o1 o2, init o1 o2 this' w = (this', w))
    /\ (isInitialized this = false ->
        UploadStorage.isSupported (storage this) = true ->
        o_init = UploadStorage.RequestSucceeds ->
        UploadStorage.isAvailable (storage this') = true)
    /\ (UploadStorage.isSupported (storage this) = false
        \/ o_init <> UploadStorage.RequestSucceeds ->
        storage this' = storage this).
Proof.
  unfold init, isInitialized.
  destruct (initialized this) eqn:Hinit.
  { exists this. rewrite Hinit. by repeat split. }
  unfold UploadStorage.init, UploadStorage.isAvailable.
  destruct (UploadStorage.isSupported (storage this)) eqn:Hsup; cbn [negb].
  - destruct o_init; cbv beta iota zeta; rewrite ?loadUnfinishedTasks_world.
    + eexists. split.
      { by destruct (autoResumeUnfinished _). }
      cbn. rewrite ?Hsup. repeat split; try done. by intros [|].
    + eexists. split; [reflexivity|]. cbn. by destruct this as [? ? [] ? ?].
    + eexists. split; [reflexivity|]. cbn. by destruct this as [? ? [] ? ?].
  - eexists. split; [reflexivity|]. cbn. by destruct this as [? ? [] ? ?].
Qed.

(** [clearAllUnfinishedTasks()] with an available storage: when both
    requests succeed it returns the number of stored records and leaves
    the store empty; when reading or clearing fails it returns 0 (also
    when records exist), leaves the store as it was and logs one
    warning. *)
Theorem clearAllUnfinishedTasks_count o_all o_clear this w :
  UploadStorage.isAvailable (storage this) = true ->
  exists n w',
    clearAllUnfinishedTasks o_all o_clear this w = (n, w')
    /\ hookCalls w' = hookCalls w
    /\ (o_all = UploadStorage.RequestSucceeds ->
        o_clear = UploadStorage.RequestSucceeds ->
        n = stdpp.base.size (idb w) /\ idb w' = ∅ /\ console w' = console w)
    /\ (o_all <> UploadStorage.RequestSucceeds
        \/ o_clear <> UploadStorage.RequestSucceeds ->
        n = 0 /\ idb w' = idb w
        /\ console w' = console w ++ ["Failed to clear all unfinished tasks:"]).
Proof.
  intros Hav. unfold clearAllUnfinishedTasks. rewrite Hav. cbn [negb].
  unfold UploadStorage.getAllRecords, UploadStorage.clearAll, UploadStorage.reject.
  rewrite UploadStorage.not_initialized_available, Hav. cbn [negb].
  destruct o_all, o_clear; cbv beta iota zeta; eexists _, _;
    (split; [reflexivity|]); (split; [reflexivity|]);
    (split; [try discriminate | try done]).
  - intros _ _. cbn. by rewrite length_fmap, length_map_to_list.
  - by intros [|].
Qed.

Lemma clearAllUnfinishedTasks_count_witness :
  fst (clearAllUnfinishedTasks UploadStorage.RequestSucceeds
         UploadStorage.RequestSucceeds test_manager test_world) = 1
  /\ fst (clearAllUnfinishedTasks UploadStorage.RequestSucceeds
            (UploadStorage.RequestFails "AbortError" "aborted")
            test_manager test_world) = 0.
Proof.
  split.
  - destruct (clearAllUnfinishedTasks_count UploadStorage.RequestSucceeds
                UploadStorage.RequestSucceeds test_manager test_world eq_refl)
      as (n & w' & -> & _ & H & _).
    destruct (H eq_refl eq_refl) as (-> & _). by vm_compute.
  - destruct (clearAllUnfinishedTasks_count UploadStorage.RequestSucceeds
                (UploadStorage.RequestFails "AbortError" "aborted")
                test_manager test_world eq_refl)
      as (n & w' & -> & _ & _ & H).
    by destruct H as (-> & _); [right|].
Defined.

Lemma fold_count_status statuses stats :
  let r := fold_left count_status statuses stats in
  total r = total stats
  /\ idle r = idle stats + count_of IDLE statuses
  /\ uploading r = uploading stats + count_of UPLOADING statuses
  /\ paused r = paused stats + count_of PAUSED statuses
  /\ success r = success stats + count_of SUCCESS statuses
  /\ error r = error stats + count_of ERROR statuses
  /\ cancelled r = cancelled stats + count_of CANCELLED statuses.
Proof.
  revert stats. induction statuses as [|s l IH]; intros stats.
  - cbn. unfold count_of. cbn. lia.
  - cbn zeta. cbn [fold_left]. specialize (IH (count_status stats s)).
    cbn zeta in IH. destruct IH as (-> & -> & -> & -> & -> & -> & ->).
    unfold count_of. rewrite !filter_cons.
    destruct s; cbn; repeat (case_decide; try congruence); cbn; lia.
Qed.

Lemma count_of_total statuses :
  length statuses =
  count_of IDLE statuses + count_of HASHING statuses + count_of UPLOADING statuses
  + count_of PAUSED statuses + count_of SUCCESS statuses + count_of ERROR statuses
  + count_of CANCELLED statuses.
Proof.
  induction statuses as [|s l IH]; [done|].
  unfold count_of in *. rewrite !filter_cons. cbn [length]. rewrite IH.
  destruct s; repeat (case_decide; try congruence); cbn; lia.
Qed.

(** [getStatistics()]: every bucket is the number of tasks with that
    status and [total] the number of tasks; a task that is hashing is
    counted in [total] but in no bucket, so the buckets add up to
    [total] minus the number of hashing tasks. *)
Theorem getStatistics_buckets statuses :
  let stats := getStatistics statuses in
  total stats = length statuses
  /\ idle stats = count_of IDLE statuses
  /\ uploading stats = count_of UPLOADING statuses
  /\ paused stats = count_of PAUSED statuses
  /\ success stats = count_of SUCCESS statuses
  /\ error stats = count_of ERROR statuses
  /\ cancelled stats = count_of CANCELLED statuses
  /\ idle stats + uploading stats + paused stats + success stats + error stats
     + cancelled stats + count_of HASHING statuses = total stats.
Proof.
  cbn zeta. unfold getStatistics.
  destruct (fold_count_status statuses
              {| total := length statuses; idle := 0; uploading := 0; paused := 0;
                 success := 0; error := 0; cancelled := 0 |})
    as (Ht & Hi & Hu & Hp & Hs & He & Hc).
  cbn in *. rewrite Ht, Hi, Hu, Hp, Hs, He, Hc.
  pose proof (count_of_total statuses). repeat split; lia.
Qed.

End UploadManager.


(** ** ConcurrencyController: a p-limit limiter behind a mutable field *)

Module ConcurrencyController.

(** Work units (the functions handed to [run]) are named by numbers. *)
Abbreviation UnitId := nat.

(** The limiter returned by [pLimit(concurrency)], as the p-limit package
    documents it: a FIFO queue of units waiting to start, the units
    started and not yet settled ([activeCount] is their number,
    [pendingCount] the queue's size), and [clearQueue()] empties the
    queue. A limiter is an object of its own: units queued or running in
    it keep it alive after the controller has dropped its reference. *)
Record Limiter : Type := mkLimiter {
  concurrency : Z;
  active : list UnitId;
  queue : list UnitId
}.

Definition pLimit (c : Z) : Limiter :=
  {| concurrency := c; active := []; queue := [] |}.

(** [limit(fn)]: the unit joins the queue. *)
Definition enqueue (u : UnitId) (l : Limiter) : Limiter :=
  {| concurrency := concurrency l; active := active l; queue := queue l ++ [u] |}.

(** The limiter starts the head of its queue when a slot is free. *)
Definition resumeNext (l : Limiter) : Limiter :=
  match queue l with
  | [] => l
  | u :: q =>
      if (Z.of_nat (length (active l)) <? concurrency l)%Z then
        {| concurrency := concurrency l; active := active l ++ [u]; queue := q |}
      else l
  end.

(** An active unit settles: its slot is given back and the next one may
    start. *)
Definition next (u : UnitId) (l : Limiter) : Limiter :=
  resumeNext {| concurrency := concurrency l;
                active := filter (λ v, v ≠ u) (active l);
                queue := queue l |}.

Definition limiter_clearQueue (l : Limiter) : Limiter :=
  {| concurrency := concurrency l; active := active l; queue := [] |}.

(** The object: [private limiter], a reference to a limiter of the heap,
    and [private currentLimit]. *)
Record t : Type := mkController {
  limiter : nat;
  currentLimit : Z
}.

(** The limiters allocated so far and the controller. *)
Record System : Type := mkSystem {
  heap : list Limiter;
  this : t
}.

(** [constructor(options)] *)
Definition new (limit : Z) : System :=
  {| heap := [pLimit limit];
     this := {| limiter := 0; currentLimit := limit |} |}.

(** [run(fn)]: [this.limiter(fn)]. *)
Definition run (u : UnitId) (s : System) : System :=
  {| heap := alter (enqueue u) (limiter (this s)) (heap s); this := this s |}.

(** [updateLimit(newLimit)]: a new limiter replaces the reference; the
    old limiter stays in the heap with its queue and its active units. *)
Definition updateLimit (newLimit : Z) (s : System) : result string unit * System :=
  if (newLimit <=? 0)%Z then
    (Throw "Concurrency limit must be greater than 0", s)
  else
    (Ok tt,
     {| heap := heap s ++ [pLimit newLimit];
        this := {| limiter := length (heap s); currentLimit := newLimit |} |}).

(** [getLimit()] *)
Definition getLimit (s : System) : Z := currentLimit (this s).

(** [get pendingCount()] *)
Definition pendingCount (s : System) : nat :=
  from_option (λ l, length (queue l)) 0 (heap s !! limiter (this s)).

(** [get activeCount()] *)
Definition activeCount (s : System) : nat :=
  from_option (λ l, length (active l)) 0 (heap s !! limiter (this s)).

(** [clearQueue()]: [this.limiter.clearQueue()]. *)
Definition clearQueue (s : System) : System :=
  {| heap := alter limiter_clearQueue (limiter (this s)) (heap s); this := this s |}.

(** What happens to a controller over its lifetime: calls of its methods,
    and the event loop letting limiter [i] start a queued unit or
    settling the promise of an active unit. *)
Inductive Action : Type :=
| Run (u : UnitId)
| UpdateLimit (newLimit : Z)
| ClearQueue
| Microtask (i : nat)
| Settle (u : UnitId).

Definition step (a : Action) (s : System) : System :=
  match a with
  | Run u => run u s
  | UpdateLimit n => snd (updateLimit n s)
  | ClearQueue => clearQueue s
  | Microtask i => {| heap := alter resumeNext i (heap s); this := this s |}
  | Settle u =>
      {| heap := (λ l, if bool_decide (u ∈ active l) then next u l else l) <$> heap s;
         this := this s |}
  end.

Fixpoint exec (acts : list Action) (s : System) : System :=
  match acts with
  | [] => s
  | a :: acts' => exec acts' (step a s)
  end.

(** Unit [u] waits in some limiter's queue: submitted, not started. *)
Definition pending (u : UnitId) (s : System) : Prop :=
  ∃ l, l ∈ heap s ∧ u ∈ queue l.

(** Unit [u] is executing. *)
Definition started (u : UnitId) (s : System) : Prop :=
  ∃ l, l ∈ heap s ∧ u ∈ active l.





(** The queue [pendingCount] measures: that of the current limiter. *)
Definition current_queue (s : System) : list UnitId :=
  from_option queue [] (heap s !! limiter (this s)).


(** *** Properties *)













(** The invariants hold over the whole lifetime: along any trace whose
    [run] calls submit distinct units, the reference stays in the heap and
    no unit is known twice. *)











(** Limit 1: unit 1 is running, units 2 and 3 wait. *)
Definition one_running_two_queued : System :=
  exec [Run 1; Microtask 0; Run 2; Run 3] (new 1).


(** The controller's own test: limit 1 and three submissions leave one
    unit active and two pending; once everything has settled both counts
    are 0. *)
Example one_active_two_pending :
  let s := exec [Run 1; Run 2; Run 3; Microtask 0; Microtask 0; Microtask 0] (new 1) in
  activeCount s = 1 ∧ pendingCount s = 2
  ∧ activeCount (exec [Settle 1; Settle 2; Settle 3] s) = 0
  ∧ pendingCount (exec [Settle 1; Settle 2; Settle 3] s) = 0.
Proof. by vm_compute. Qed.

(** *** The limit *)

(** No limiter runs more units than its concurrency, and the current
    limiter is the one made for the current limit. *)
Definition capped (s : System) : Prop :=
  Forall (λ l, (Z.of_nat (length (active l)) ≤ concurrency l)%Z) (heap s)
  ∧ ∃ cur, heap s !! limiter (this s) = Some cur
           ∧ concurrency cur = currentLimit (this s).

Lemma resumeNext_concurrency l : concurrency (resumeNext l) = concurrency l.
Proof.
  unfold resumeNext. destruct (queue l); [done|]. by destruct (_ <? _)%Z.
Qed.

Lemma resumeNext_capped l :
  (Z.of_nat (length (active l)) ≤ concurrency l)%Z →
  (Z.of_nat (length (active (resumeNext l))) ≤ concurrency (resumeNext l))%Z.
Proof.
  intros Hl. unfold resumeNext. destruct (queue l) as [|u q]; [done|].
  destruct (_ <? _)%Z eqn:Hlt; [|done]. cbn.
  apply Z.ltb_lt in Hlt. rewrite length_app. cbn. lia.
Qed.

Lemma next_capped u l :
  (Z.of_nat (length (active l)) ≤ concurrency l)%Z →
  (Z.of_nat (length (active (next u l))) ≤ concurrency (next u l))%Z.
Proof.
  intros Hl. unfold next. apply resumeNext_capped. cbn.
  pose proof (length_filter (λ v, v ≠ u) (active l)). lia.
Qed.

Lemma next_concurrency u l : concurrency (next u l) = concurrency l.
Proof. unfold next. by rewrite resumeNext_concurrency. Qed.

Lemma lookup_alter_concurrency (f : Limiter → Limiter) (i j : nat)
    (h : list Limiter) (cur : Limiter) :
  (∀ l, concurrency (f l) = concurrency l) →
  h !! j = Some cur →
  ∃ cur', alter f i h !! j = Some cur' ∧ concurrency cur' = concurrency cur.
Proof.
  intros Hf Hcur. destruct (decide (i = j)) as [->|Hne].
  - rewrite list_lookup_alter_eq, Hcur. cbn. eexists. split; [done|]. apply Hf.
  - rewrite list_lookup_alter_ne by done. by eexists.
Qed.

Lemma step_capped a s : capped s → capped (step a s).
Proof.
  intros [Hall (cur & Hcur & Hc)]. unfold capped.
  destruct a as [v|n| |i|v]; cbn.
  - split; [by apply Forall_alter|].
    destruct (lookup_alter_concurrency (enqueue v) (limiter (this s)) _ _ _
                (λ _, eq_refl) Hcur) as (cur' & ? & ?).
    exists cur'. split; [done | congruence].
  - unfold updateLimit. destruct (n <=? 0)%Z eqn:Hn; cbn.
    { split; [done|]. by exists cur. }
    apply Z.leb_gt in Hn. split.
    + apply Forall_app. split; [done|]. apply Forall_singleton. cbn. lia.
    + exists (pLimit n). split; [|done].
      rewrite lookup_app_r by done. by rewrite Nat.sub_diag.
  - split; [by apply Forall_alter|].
    destruct (lookup_alter_concurrency limiter_clearQueue (limiter (this s)) _ _ _
                (λ _, eq_refl) Hcur) as (cur' & ? & ?).
    exists cur'. split; [done | congruence].
  - split.
    + apply Forall_alter; [done|]. intros l _. apply resumeNext_capped.
    + destruct (lookup_alter_concurrency resumeNext i _ _ _
                  resumeNext_concurrency Hcur) as (cur' & ? & ?).
      exists cur'. split; [done | congruence].
  - split.
    + apply Forall_fmap. eapply Forall_impl; [exact Hall|].
      intros l Hl. cbn. case_bool_decide; [by apply next_capped | done].
    + rewrite list_lookup_fmap, Hcur. cbn. eexists. split; [done|].
      case_bool_decide; [by rewrite next_concurrency | done].
Qed.

Lemma exec_capped acts s : capped s → capped (exec acts s).
Proof.
  revert s. induction acts as [|a acts IH]; intros s Hs; [done|].
  cbn. apply IH. by apply step_capped.
Qed.

Lemma new_capped limit : (0 < limit)%Z → capped (new limit).
Proof.
  intros Hl. split.
  - apply Forall_singleton. cbn. lia.
  - by exists (pLimit limit).
Qed.

(** The limit is kept over the whole lifetime of a controller made with
    a positive limit: after any calls and events, no limiter runs more
    units than its concurrency, and [activeCount] is at most
    [getLimit()]. *)
Theorem activeCount_within_limit limit acts :
  (0 < limit)%Z →
  let s := exec acts (new limit) in
  (Z.of_nat (activeCount s) ≤ getLimit s)%Z
  ∧ ∀ l, l ∈ heap s → (Z.of_nat (length (active l)) ≤ concurrency l)%Z.
Proof.
  intros Hl s.
  destruct (exec_capped acts _ (new_capped limit Hl)) as [Hall (cur & Hcur & Hc)].
  fold s in Hall, Hcur, Hc. rewrite Forall_forall in Hall. split; [|done].
  unfold activeCount, getLimit. rewrite Hcur. cbn. rewrite <- Hc.
  apply Hall. by eapply list_elem_of_lookup_2.
Qed.

Lemma activeCount_within_limit_witness :
  (Z.of_nat (activeCount
     (exec [Run 1; Run 2; Run 3; Microtask 0; Microtask 0; Microtask 0] (new 2)))
   ≤ 2)%Z.
Proof.
  destruct (activeCount_within_limit 2
              [Run 1; Run 2; Run 3; Microtask 0; Microtask 0; Microtask 0])
    as [H _]; [lia|].
  exact H.
Defined.

(** [updateLimit(newLimit)]: a limit that is not positive is refused
    with "Concurrency limit must be greater than 0" and nothing changes.
    A positive one becomes [getLimit()], and both counts read 0 from
    then on although nothing was stopped: every unit that was pending or
    running still is, in the limiter it was submitted to. *)
Theorem updateLimit_fresh_limiter newLimit s :
  ((newLimit ≤ 0)%Z →
     updateLimit newLimit s = (Throw "Concurrency limit must be greater than 0", s))
  ∧ ((0 < newLimit)%Z →
     ∃ s', updateLimit newLimit s = (Ok tt, s')
       ∧ getLimit s' = newLimit
       ∧ pendingCount s' = 0
       ∧ activeCount s' = 0
       ∧ ∀ u, (pending u s' ↔ pending u s) ∧ (started u s' ↔ started u s)).
Proof.
  unfold updateLimit. split; intros Hn.
  - apply Z.leb_le in Hn. by rewrite Hn.
  - apply Z.leb_gt in Hn. rewrite Hn. eexists. split; [reflexivity|].
    unfold getLimit, pendingCount, activeCount, pending, started. cbn.
    rewrite lookup_app_r by done. rewrite Nat.sub_diag. cbn.
    repeat split; try done.
    + intros (l & Hl & Hu). exists l. split; [|done].
      apply elem_of_app in Hl as [?|Hl]; [done|].
      apply list_elem_of_singleton in Hl as ->. by apply not_elem_of_nil in Hu.
    + intros (l & Hl & Hu). exists l. split; [|done]. apply elem_of_app. by left.
    + intros (l & Hl & Hu). exists l. split; [|done].
      apply elem_of_app in Hl as [?|Hl]; [done|].
      apply list_elem_of_singleton in Hl as ->. by apply not_elem_of_nil in Hu.
    + intros (l & Hl & Hu). exists l. split; [|done]. apply elem_of_app. by left.
Qed.

Lemma updateLimit_fresh_limiter_witness :
  updateLimit 0 one_running_two_queued
  = (Throw "Concurrency limit must be greater than 0", one_running_two_queued)
  ∧ ∃ s', updateLimit 5 one_running_two_queued = (Ok tt, s')
          ∧ activeCount s' = 0 ∧ (started 1 s' ↔ started 1 one_running_two_queued).
Proof.
  destruct (updateLimit_fresh_limiter 0 one_running_two_queued) as [Hbad _].
  destruct (updateLimit_fresh_limiter 5 one_running_two_queued) as [_ Hgood].
  split; [apply Hbad; lia|].
  destruct Hgood as (s' & Hs' & _ & _ & Ha & Hu); [lia|].
  exists s'. split; [exact Hs'|]. split; [exact Ha|]. apply Hu.
Defined.

Lemma resumeNext_enqueue u cur :
  queue cur = [] →
  resumeNext (enqueue u cur) =
  if (Z.of_nat (length (active cur)) <? concurrency cur)%Z
  then {| concurrency := concurrency cur; active := active cur ++ [u]; queue := [] |}
  else {| concurrency := concurrency cur; active := active cur; queue := [u] |}.
Proof.
  intros Hq. unfold resumeNext, enqueue. cbn. rewrite Hq. cbn.
  by destruct (_ <? _)%Z.
Qed.

(** Submitting to a controller whose current limiter has nothing
    waiting, at any point of its lifetime: at the limiter's next turn the
    unit starts if [activeCount] is below [getLimit()], and otherwise
    waits, the only unit pending. *)
Theorem run_starts_when_slot_free limit acts u :
  (0 < limit)%Z →
  let s := exec acts (new limit) in
  current_queue s = [] →
  let s' := step (Microtask (limiter (this s))) (run u s) in
  if (Z.of_nat (activeCount s) <? getLimit s)%Z
  then started u s' ∧ activeCount s' = S (activeCount s) ∧ pendingCount s' = 0
  else pending u s' ∧ activeCount s' = activeCount s ∧ pendingCount s' = 1.
Proof.
  intros Hl s Hq s'.
  destruct (exec_capped acts _ (new_capped limit Hl)) as [_ (cur & Hcur & Hc)].
  fold s in Hcur, Hc.
  unfold current_queue in Hq. rewrite Hcur in Hq. cbn in Hq.
  assert (heap s' !! limiter (this s) = Some (resumeNext (enqueue u cur))) as Hcur'.
  { unfold s', run. cbn. by rewrite !list_lookup_alter_eq, Hcur. }
  rewrite (resumeNext_enqueue u cur Hq) in Hcur'.
  unfold activeCount, pendingCount, getLimit, started, pending.
  replace (this s') with (this s) by done.
  rewrite Hcur, Hcur'. cbn [from_option]. rewrite <- Hc.
  destruct (_ <? _)%Z; cbn.
  - split; [|by rewrite length_app, Nat.add_comm].
    eexists. split; [by eapply list_elem_of_lookup_2|]. cbn. set_solver.
  - split; [|done].
    eexists. split; [by eapply list_elem_of_lookup_2|]. cbn. set_solver.
Qed.

Lemma run_starts_when_slot_free_witness :
  started 1 (exec [Run 1; Microtask 0] (new 1))
  ∧ pending 2 (exec [Run 1; Microtask 0; Run 2; Microtask 0] (new 1)).
Proof.
  split.
  - destruct (run_starts_when_slot_free 1 [] 1) as (H & _); [lia | reflexivity|].
    exact H.
  - destruct (run_starts_when_slot_free 1 [Run 1; Microtask 0] 2) as (H & _);
      [lia | reflexivity|].
    exact H.
Defined.

End ConcurrencyController.


(** ** The event bus: [createEventBus] returns [mitt<UploadEvents>()] *)

Module EventBus.

(** [UploadEvents]: the topics with their payloads. *)
Inductive UploadEvent : Type :=
| start (taskId : string) (file : File.t)
| progress (taskId : string) (progress speed : Q)
| chunkSuccess (taskId : string) (chunkIndex : Z)
| chunkError (taskId : string) (chunkIndex : Z) (error : string)
| hashProgress (taskId : string) (progress : Q)
| hashComplete (taskId : string) (hash : string)
| success (taskId : string) (fileUrl : string)
| error (taskId : string) (error : string)
| pause (taskId : string)
| resume (taskId : string)
| cancel (taskId : string).

(** The key of [UploadEvents] an event is emitted under. *)
Definition topic (e : UploadEvent) : string :=
  match e with
  | start _ _ => "start"
  | progress _ _ _ => "progress"
  | chunkSuccess _ _ => "chunkSuccess"
  | chunkError _ _ _ => "chunkError"
  | hashProgress _ _ => "hashProgress"
  | hashComplete _ _ => "hashComplete"
  | success _ _ => "success"
  | error _ _ => "error"
  | pause _ => "pause"
  | resume _ => "resume"
  | cancel _ => "cancel"
  end.

(** A handler: a function object (told apart by [handler_id], as [===]
    does) that returns or throws when called with an event. *)
Record Handler : Type := mkHandler {
  handler_id : nat;
  behaviour : UploadEvent → result string unit
}.

(** One invocation of a handler, as an observer of the run sees it. *)
Abbreviation Call := (nat * UploadEvent)%type.

(** mitt's handler map [all]: topic (or "*") to the array of handlers. *)
Abbreviation HandlerMap := (gmap string (list Handler)).

(** [createEventBus()]: [mitt()] starts from an empty map. *)
Definition createEventBus : HandlerMap := ∅.

(** [on(type, handler)], as in the mitt package: push onto the topic's
    array, or create it. *)
Definition on (type : string) (handler : Handler) (all : HandlerMap) : HandlerMap :=
  match all !! type with
  | Some handlers => <[type := handlers ++ [handler]]> all
  | None => <[type := [handler]]> all
  end.

(** Removal of the first occurrence, [handlers.splice(handlers.indexOf(handler) >>> 0, 1)]. *)
Fixpoint remove_first (i : nat) (handlers : list Handler) : list Handler :=
  match handlers with
  | [] => []
  | h :: hs => if Nat.eqb (handler_id h) i then hs else h :: remove_first i hs
  end.

(** [off(type, handler?)] *)
Definition off (type : string) (handler : option Handler) (all : HandlerMap) : HandlerMap :=
  match all !! type with
  | Some handlers =>
      match handler with
      | Some h => <[type := remove_first (handler_id h) handlers]> all
      | None => <[type := []]> all
      end
  | None => all
  end.

(** [handlers.slice().map(handler => { handler(evt) })]: the handlers are
    called one after the other; there is no [try] around the call, so
    what a handler throws leaves the loop. *)
Fixpoint call_each (handlers : list Handler) (evt : UploadEvent)
  : result string unit * list Call :=
  match handlers with
  | [] => (Ok tt, [])
  | h :: hs =>
      match behaviour h evt with
      | Throw e => (Throw e, [(handler_id h, evt)])
      | Ok _ =>
          let '(r, calls) := call_each hs evt in
          (r, (handler_id h, evt) :: calls)
      end
  end.

(** [emit(type, evt)], as in the mitt package: the topic's handlers, then
    the "*" handlers. Returns what [emit] returns or throws and the calls
    made, in order. *)
Definition emit (evt : UploadEvent) (all : HandlerMap)
  : result string unit * list Call :=
  match call_each (default [] (all !! topic evt)) evt with
  | (Throw e, calls) => (Throw e, calls)
  | (Ok _, calls) =>
      let '(r, calls') := call_each (default [] (all !! "*")) evt in
      (r, calls ++ calls')
  end.

(** The handlers [emit] would reach for an event, in calling order. *)
Definition listeners (evt : UploadEvent) (all : HandlerMap) : list Handler :=
  default [] (all !! topic evt) ++ default [] (all !! "*").



(** *** Properties *)

(** [on] appends: registration order is array order. *)
Lemma on_lookup type handler all :
  on type handler all !! type = Some (default [] (all !! type) ++ [handler]).
Proof.
  unfold on. destruct (all !! type) as [hs|] eqn:E; by rewrite lookup_insert_eq.
Qed.

Lemma on_lookup_ne type type' handler all :
  type ≠ type' → on type handler all !! type' = all !! type'.
Proof.
  intros Hne. unfold on. destruct (all !! type); by rewrite lookup_insert_ne.
Qed.




(** A handler that throws, registered before one that only returns. *)
Definition failing : Handler :=
  {| handler_id := 1; behaviour := λ _, Throw "handler failed" |}.

Definition quiet : Handler :=
  {| handler_id := 2; behaviour := λ _, Ok tt |}.

Definition two_handlers : HandlerMap :=
  on "pause" quiet (on "pause" failing createEventBus).







(** *** Topics and removal *)

Lemma remove_first_snoc h hs :
  handler_id h ∉ handler_id <$> hs →
  remove_first (handler_id h) (hs ++ [h]) = hs.
Proof.
  induction hs as [|x hs IH]; intros Hnot; cbn.
  - by rewrite Nat.eqb_refl.
  - cbn in Hnot. apply not_elem_of_cons in Hnot as [Hne Hnot].
    destruct (Nat.eqb_spec (handler_id x) (handler_id h)) as [E|_]; [congruence|].
    by rewrite IH.
Qed.

(** [off(type, handler)] undoes [on(type, handler)] for a handler that
    was not registered under the topic before: every event reaches the
    same handlers, in the same order, as before the two calls; and
    [off(type)] without a handler leaves the topic without handlers. *)
Theorem off_undoes_on type h all :
  handler_id h ∉ handler_id <$> default [] (all !! type) →
  (∀ evt, listeners evt (off type (Some h) (on type h all)) = listeners evt all)
  ∧ (∀ evt, emit evt (off type (Some h) (on type h all)) = emit evt all)
  ∧ off type None (on type h all) !! type = Some [].
Proof.
  intros Hnot.
  assert (∀ k, default [] (off type (Some h) (on type h all) !! k)
               = default [] (all !! k)) as Hsame.
  { intros k. unfold off. rewrite on_lookup.
    destruct (decide (k = type)) as [->|Hne].
    - rewrite lookup_insert_eq. cbn. by apply remove_first_snoc.
    - rewrite lookup_insert_ne by done. by rewrite on_lookup_ne. }
  split; [|split].
  - intros evt. unfold listeners. by rewrite !Hsame.
  - intros evt. unfold emit. by rewrite !Hsame.
  - unfold off. rewrite on_lookup. by rewrite lookup_insert_eq.
Qed.

Lemma off_undoes_on_witness :
  emit (pause "task-1") (off "pause" (Some quiet) two_handlers)
  = emit (pause "task-1") (on "pause" failing createEventBus).
Proof.
  destruct (off_undoes_on "pause" quiet (on "pause" failing createEventBus))
    as (_ & H & _).
  - unfold createEventBus. rewrite on_lookup, lookup_empty. cbn.
    intros [=]%list_elem_of_singleton.
  - apply H.
Defined.

End EventBus.


(** ** UploadController.getFile: serving a completed file, with ranges *)

Module UploadController.

Local Open Scope Z_scope.

Abbreviation bytes := (list Byte.byte).

(** *** The upload service behind the controller *)

Inductive ManifestStatus : Type := pending | completed.

(** Modelled from the spec: the manifest record of the upload-server
    package, which is not among the sources. Section 3: a file id maps to
    the ordered list of chunk hashes, the total size, the MIME type, the
    completion status and the creation time. *)
Record Manifest : Type := mkManifest {
  chunkHashes : list string;
  size : Z;
  mimeType : string;
  status : ManifestStatus;
  createdAt : Z
}.

(** Modelled from the spec: the state of the [UploadService] of the
    upload-server package (not among the sources): the manifests of the
    metadata store and the content-addressed blob store, chunk hash to
    bytes. *)
Record UploadService : Type := mkService {
  manifests : gmap string Manifest;
  blobs : gmap string bytes
}.

(** Modelled from the spec: [getFileMetadata(fileId)] of the missing
    [UploadService] looks up the manifest. *)
Definition getFileMetadata (fileId : string) (svc : UploadService) : option Manifest :=
  manifests svc !! fileId.

(** [blob.slice(from, to)]: the bytes at offsets [from <= i < to]. *)
Definition slice (b : bytes) (from to : Z) : bytes :=
  take (Z.to_nat (to - from)) (drop (Z.to_nat from) b).

(** Modelled from the spec: the part of one chunk, stored at absolute
    offset [offset], that a read of [[start, end]] needs. Section 4.9:
    "compute for each chunk its overlap with [start,end] and read only
    the overlapping slice". *)
Definition overlap (chunk : bytes) (offset start end_ : Z) : bytes :=
  let lo := Z.max start offset in
  let hi := Z.min end_ (offset + Z.of_nat (length chunk) - 1) in
  if lo <=? hi then slice chunk (lo - offset) (hi - offset + 1) else [].

(** Modelled from the spec: the stream over the ordered chunk blobs,
    "sequentially reads the ordered chunk blobs ... concatenate"; a hash
    without a blob ends the read with a failure. *)
Fixpoint read_chunks (store : gmap string bytes) (hashes : list string)
    (offset : Z) (range : option (Z * Z)) : option bytes :=
  match hashes with
  | [] => Some []
  | h :: hs =>
      match store !! h with
      | None => None
      | Some chunk =>
          let part :=
            match range with
            | Some (start, end_) => overlap chunk offset start end_
            | None => chunk
            end in
          match read_chunks store hs (offset + Z.of_nat (length chunk)) range with
          | None => None
          | Some rest => Some (part ++ rest)
          end
      end
  end.

(** Modelled from the spec: [getFileStream(fileId, range?)] of the
    missing [UploadService]: "look up Manifest; if incomplete, fail
    NotFound", else the stream and the MIME type. *)
Definition getFileStream (fileId : string) (range : option (Z * Z))
    (svc : UploadService) : option (bytes * string) :=
  match manifests svc !! fileId with
  | None => None
  | Some m =>
      match status m with
      | pending => None
      | completed =>
          match read_chunks (blobs svc) (chunkHashes m) 0 range with
          | None => None
          | Some stream => Some (stream, mimeType m)
          end
      end
  end.

(** *** The [Range] header *)

Definition is_digit (c : Ascii.ascii) : bool :=
  let n := Ascii.nat_of_ascii c in
  (Nat.leb 48 n && Nat.leb n 57)%bool.

(** The longest run of digits a string starts with, and the rest. *)
Fixpoint span_digits (s : string) : string * string :=
  match s with
  | EmptyString => (EmptyString, EmptyString)
  | String c s' =>
      if is_digit c then
        let '(d, rest) := span_digits s' in (String c d, rest)
      else (EmptyString, s)
  end.

(** [s] without the prefix [p], when it starts with it. *)
Fixpoint strip_prefix (p s : string) : option string :=
  match p, s with
  | EmptyString, _ => Some s
  | String a p', String b s' =>
      if Ascii.eqb a b then strip_prefix p' s' else None
  | String _ _, EmptyString => None
  end.

(** The pattern of the source's regular expression, [bytes=], a captured
    run of one or more digits, a dash, a captured run of digits that may
    be empty, tried at the head of [s]: the two captured groups. The digits are taken greedily; giving some
    back cannot help, the character after a shorter run being a digit and
    not the dash. *)
Definition match_here (s : string) : option (string * string) :=
  match strip_prefix "bytes=" s with
  | None => None
  | Some rest =>
      let '(g1, rest1) := span_digits rest in
      match g1 with
      | EmptyString => None
      | String _ _ =>
          match strip_prefix "-" rest1 with
          | None => None
          | Some rest2 => Some (g1, fst (span_digits rest2))
          end
      end
  end.

(** [rangeHeader.match(...)]: the pattern is not anchored, the leftmost
    match wins. *)
Fixpoint regex_match (s : string) : option (string * string) :=
  match match_here s with
  | Some groups => Some groups
  | None =>
      match s with
      | EmptyString => None
      | String _ s' => regex_match s'
      end
  end.

(** [parseInt] on a run of digits: its decimal value. The groups of the
    expression hold digits only, and the first is never empty, so
    [isNaN(start)] is false wherever the source tests it. *)
Definition parseInt (digits : string) : Z :=
  match NilEmpty.uint_of_string digits with
  | Some d => Z.of_uint d
  | None => 0
  end.

(** The [range] the handler computes from the header. *)
Definition parse_range (rangeHeader : option string) (fileSize : Z)
  : option (Z * Z) :=
  match rangeHeader with
  | None => None
  | Some EmptyString => None
  | Some header =>
      match regex_match header with
      | None => None
      | Some (g1, g2) =>
          let start := parseInt g1 in
          let end_ :=
            match g2 with
            | EmptyString => fileSize - 1
            | String _ _ => parseInt g2
            end in
          if start <? fileSize then Some (start, Z.min end_ (fileSize - 1))
          else None
      end
  end.

(** *** The reply *)

Inductive HeaderValue : Type :=
| HString (s : string)
| HNumber (n : Z).

Record FastifyReply : Type := mkReply {
  statusCode : Z;
  headers : gmap string HeaderValue;
  payload : bytes
}.

Record HttpException : Type := mkHttpException {
  response : string;
  httpStatus : Z
}.

Definition NOT_FOUND : Z := 404.

Definition header (k : string) (v : HeaderValue) (r : FastifyReply) : FastifyReply :=
  {| statusCode := statusCode r; headers := <[k := v]> (headers r); payload := payload r |}.

Definition set_status (c : Z) (r : FastifyReply) : FastifyReply :=
  {| statusCode := c; headers := headers r; payload := payload r |}.

Definition send (b : bytes) (r : FastifyReply) : FastifyReply :=
  {| statusCode := statusCode r; headers := headers r; payload := b |}.

(** A reply nothing has been written to; Fastify's default status. *)
Definition fresh_reply : FastifyReply :=
  {| statusCode := 200; headers := ∅; payload := [] |}.

(** [getFile(fileId, rangeHeader, reply)]: the three errors the handler
    raises itself in its [try] block become a 404 [HttpException] with
    their message. The calls of the service are modelled as returning;
    an exception of the service's own, which the [catch] would forward
    with that exception's message, has no counterpart here. *)
Definition getFile (fileId : string) (rangeHeader : option string)
    (reply : FastifyReply) (svc : UploadService)
  : result HttpException FastifyReply :=
  match getFileMetadata fileId svc with
  | None =>
      Throw {| response := "File not found or not completed"; httpStatus := NOT_FOUND |}
  | Some fileMetadata =>
      match status fileMetadata with
      | pending =>
          Throw {| response := "File not found or not completed"; httpStatus := NOT_FOUND |}
      | completed =>
          let range := parse_range rangeHeader (size fileMetadata) in
          match getFileStream fileId range svc with
          | None =>
              Throw {| response := "File not found or not completed";
                       httpStatus := NOT_FOUND |}
          | Some (stream, mime) =>
              let reply :=
                header "Content-Type"
                  (HString (match mime with
                            | EmptyString => "application/octet-stream"
                            | String _ _ => mime
                            end)) reply in
              let reply := header "Accept-Ranges" (HString "bytes") reply in
              let reply :=
                match range with
                | Some (start, end_) =>
                    let reply := set_status 206 reply in
                    let contentLength := end_ - start + 1 in
                    let reply :=
                      header "Content-Range"
                        (HString ("bytes " +:+ Number_toString start +:+ "-"
                                  +:+ Number_toString end_ +:+ "/"
                                  +:+ Number_toString (size fileMetadata))) reply in
                    header "Content-Length" (HNumber contentLength) reply
                | None =>
                    let reply := set_status 200 reply in
                    header "Content-Length" (HNumber (size fileMetadata)) reply
                end in
              Ok (send stream reply)
          end
      end
  end.

(** The header [Range: bytes=s-e] a client sends for the offsets [s], [e]. *)
Definition range_header (s e : Z) : string :=
  "bytes=" +:+ Number_toString s +:+ "-" +:+ Number_toString e.

(** The chunks of a manifest, in manifest order, when all are stored. *)
Definition stored_chunks (svc : UploadService) (m : Manifest) : option (list bytes) :=
  mapM (λ h, blobs svc !! h) (chunkHashes m).

(** The bytes of [l] at the offsets [a <= i <= b]. *)
Definition window (l : bytes) (a b : Z) : bytes :=
  take (Z.to_nat (b + 1) - Z.to_nat a) (drop (Z.to_nat a) l).

(** *** Properties: reading a window through the chunks *)

Lemma window_app c r a b :
  window (c ++ r) a b
  = window c a b
    ++ window r (a - Z.of_nat (length c)) (b - Z.of_nat (length c)).
Proof.
  unfold window. rewrite drop_app, take_app, length_drop.
  f_equal. f_equal; [lia|]. f_equal. lia.
Qed.

Lemma overlap_window chunk offset start end_ :
  overlap chunk offset start end_ = window chunk (start - offset) (end_ - offset).
Proof.
  unfold overlap, slice, window.
  destruct (Z.leb_spec (Z.max start offset)
              (Z.min end_ (offset + Z.of_nat (length chunk) - 1))) as [Hle|Hgt].
  - replace (Z.to_nat (Z.max start offset - offset)) with (Z.to_nat (start - offset))
      by lia.
    destruct (Z.le_gt_cases end_ (offset + Z.of_nat (length chunk) - 1)) as [He|He].
    + f_equal. lia.
    + rewrite !take_ge; [done| |]; rewrite length_drop; lia.
  - symmetry.
    destruct (Nat.le_gt_cases (length chunk) (Z.to_nat (start - offset))) as [Hs|Hs].
    + rewrite drop_ge by lia. apply take_nil.
    + replace (Z.to_nat (end_ - offset + 1) - Z.to_nat (start - offset))%nat with 0%nat
        by lia.
      done.
Qed.

Lemma read_chunks_window store hashes chunks offset start end_ :
  mapM (λ h, store !! h) hashes = Some chunks →
  read_chunks store hashes offset (Some (start, end_))
  = Some (window (concat chunks) (start - offset) (end_ - offset)).
Proof.
  revert chunks offset. induction hashes as [|h hs IH]; intros chunks offset Hm.
  - cbn in Hm. injection Hm as <-. cbn. unfold window. by rewrite drop_nil, take_nil.
  - cbn in Hm. destruct (store !! h) as [c|] eqn:Hc; [|done]. cbn in Hm.
    destruct (mapM _ hs) as [cs|] eqn:Hcs; [|done]. cbn in Hm.
    injection Hm as <-. cbn. rewrite Hc, (IH cs _ eq_refl).
    rewrite overlap_window, window_app. do 3 f_equal; lia.
Qed.

Lemma window_take_drop l s e :
  0 <= s → s <= e →
  window l s e = take (Z.to_nat (e - s + 1)) (drop (Z.to_nat s) l).
Proof. intros Hs He. unfold window. f_equal. lia. Qed.

(** *** Properties: the header round trip *)

Lemma append_empty (s : string) : s +:+ EmptyString = s.
Proof.
  induction s as [|c s IH]; [done|].
  change (String c (s +:+ EmptyString) = String c s). by rewrite IH.
Qed.

Lemma append_String c (x y : string) : String c x +:+ y = String c (x +:+ y).
Proof. reflexivity. Qed.

Lemma span_digits_digit c s :
  is_digit c = true →
  span_digits (String c s) = (String c (fst (span_digits s)), snd (span_digits s)).
Proof.
  intros Hc. cbn [span_digits]. rewrite Hc. by destruct (span_digits s).
Qed.

(** A run of decimal digits followed by something that does not start
    with a digit is read back whole. *)
Lemma span_digits_uint d rest :
  span_digits rest = (EmptyString, rest) →
  span_digits (NilEmpty.string_of_uint d +:+ rest)
  = (NilEmpty.string_of_uint d, rest).
Proof.
  intros Hrest.
  induction d as [|d IH|d IH|d IH|d IH|d IH|d IH|d IH|d IH|d IH|d IH];
    cbn [NilEmpty.string_of_uint]; [done|..];
    by rewrite append_String, span_digits_digit, IH.
Qed.

(** The rendering of a non-negative number: a non-empty run of digits
    whose decimal value is the number. *)
Lemma Number_toString_digits z :
  0 <= z →
  ∃ d, Number_toString z = NilEmpty.string_of_uint d
       ∧ NilEmpty.string_of_uint d ≠ EmptyString
       ∧ Z.of_uint d = z.
Proof.
  intros Hz. destruct z as [|p|p]; [| |lia].
  - exists (Decimal.D0 Decimal.Nil). by repeat split.
  - exists (Pos.to_uint p). unfold Number_toString; cbn.
    pose proof (Unsigned.to_uint_nonnil p) as Hnil.
    split; [by destruct (Pos.to_uint p)|].
    split; [by destruct (Pos.to_uint p)|].
    unfold Z.of_uint. by rewrite Unsigned.of_to.
Qed.

Lemma parseInt_Number_toString z : 0 <= z → parseInt (Number_toString z) = z.
Proof.
  intros Hz. destruct (Number_toString_digits z Hz) as (d & -> & _ & Hd).
  unfold parseInt. by rewrite NilEmpty.usu.
Qed.

Lemma regex_match_here s groups :
  match_here s = Some groups → regex_match s = Some groups.
Proof. intros Hm. destruct s; cbn [regex_match]; by rewrite Hm. Qed.

Lemma regex_match_range_header s e :
  0 <= s → 0 <= e →
  regex_match (range_header s e) = Some (Number_toString s, Number_toString e).
Proof.
  intros Hs He.
  destruct (Number_toString_digits s Hs) as (ds & Es & Hns & _).
  destruct (Number_toString_digits e He) as (de & Ee & Hne & _).
  unfold range_header. rewrite Es, Ee.
  assert (match_here ("bytes=" +:+ NilEmpty.string_of_uint ds +:+ "-"
                        +:+ NilEmpty.string_of_uint de)
          = Some (NilEmpty.string_of_uint ds, NilEmpty.string_of_uint de)) as Hm.
  { unfold match_here.
    change (strip_prefix "bytes=" ("bytes=" +:+ ?x)) with (Some x).
    cbv beta iota. rewrite span_digits_uint by done.
    destruct (NilEmpty.string_of_uint ds) as [|c g1] eqn:Eg; [done|].
    change (strip_prefix "-" ("-" +:+ ?x)) with (Some x).
    cbv beta iota.
    rewrite <- (append_empty (NilEmpty.string_of_uint de)) at 1.
    by rewrite span_digits_uint. }
  by apply regex_match_here.
Qed.

Lemma parse_range_range_header s e n :
  0 <= s → s <= e → e < n →
  parse_range (Some (range_header s e)) n = Some (s, e).
Proof.
  intros Hs Hse Hen.
  unfold parse_range.
  rewrite regex_match_range_header by lia.
  rewrite !parseInt_Number_toString by lia.
  destruct (Number_toString_digits e ltac:(lia)) as (de & Ee & Hne & _).
  unfold range_header. cbn [String.append].
  destruct (Number_toString e) as [|c g2] eqn:Eg; [by rewrite Ee in Hne|].
  assert ((s <? n) = true) as -> by lia.
  by replace (Z.min e (n - 1)) with e by lia.
Qed.

(** C3: for a completed file whose manifest lists the stored chunks and
    whose size [N] is the length of their concatenation, and for offsets
    [0 <= s <= e < N], the handler answers [Range: bytes=s-e] with status
    206, [Content-Range: bytes s-e/N], [Content-Length] [e - s + 1], and
    as body the [e - s + 1] bytes at offset [s] of the concatenation of
    the chunks in manifest order. *)
Theorem getFile_range svc fileId m chunks s e reply :
  manifests svc !! fileId = Some m →
  status m = completed →
  stored_chunks svc m = Some chunks →
  size m = Z.of_nat (length (concat chunks)) →
  0 <= s → s <= e → e < size m →
  ∃ r, getFile fileId (Some (range_header s e)) reply svc = Ok r
    ∧ statusCode r = 206
    ∧ headers r !! "Content-Range"
      = Some (HString ("bytes " +:+ Number_toString s +:+ "-" +:+ Number_toString e
                       +:+ "/" +:+ Number_toString (size m)))
    ∧ headers r !! "Content-Length" = Some (HNumber (e - s + 1))
    ∧ headers r !! "Accept-Ranges" = Some (HString "bytes")
    ∧ payload r = take (Z.to_nat (e - s + 1)) (drop (Z.to_nat s) (concat chunks))
    ∧ Z.of_nat (length (payload r)) = e - s + 1.
Proof.
  intros Hm Hst Hchunks Hsize Hs Hse Hen.
  unfold getFile, getFileMetadata, getFileStream. rewrite Hm, Hst.
  rewrite (parse_range_range_header s e (size m)) by done.
  unfold stored_chunks in Hchunks.
  rewrite (read_chunks_window _ _ chunks) by done.
  rewrite !Z.sub_0_r, window_take_drop by done.
  eexists. split; [reflexivity|].
  cbn [headers statusCode payload header set_status send].
  split; [done|].
  split; [rewrite lookup_insert_ne by done; by rewrite lookup_insert_eq|].
  split; [by rewrite lookup_insert_eq|].
  split; [rewrite !lookup_insert_ne by done; by rewrite lookup_insert_eq|].
  split; [done|].
  rewrite length_take, length_drop. lia.
Qed.

(** Scenario S6 in small: a 10-byte file stored as chunks of 4, 4 and 2
    bytes, read at offsets 3 to 6. *)
Definition chunk_a : bytes := [Byte.x00; Byte.x01; Byte.x02; Byte.x03].
Definition chunk_b : bytes := [Byte.x04; Byte.x05; Byte.x06; Byte.x07].
Definition chunk_c : bytes := [Byte.x08; Byte.x09].

Definition ten_bytes : Manifest :=
  {| chunkHashes := ["hash-a"; "hash-b"; "hash-c"]; size := 10;
     mimeType := "application/pdf"; status := completed; createdAt := 1762000000000 |}.

Definition small_service : UploadService :=
  {| manifests := {[ "file-x" := ten_bytes ]};
     blobs := <["hash-a" := chunk_a]> (<["hash-b" := chunk_b]> {[ "hash-c" := chunk_c ]}) |}.

Lemma small_service_chunks :
  stored_chunks small_service ten_bytes = Some [chunk_a; chunk_b; chunk_c].
Proof.
  by vm_compute.
Qed.

Lemma getFile_range_witness :
  ∃ r, getFile "file-x" (Some "bytes=3-6") fresh_reply small_service = Ok r
    ∧ statusCode r = 206
    ∧ headers r !! "Content-Range" = Some (HString "bytes 3-6/10")
    ∧ headers r !! "Content-Length" = Some (HNumber 4)
    ∧ payload r = [Byte.x03; Byte.x04; Byte.x05; Byte.x06].
Proof.
  destruct (getFile_range small_service "file-x" ten_bytes
              [chunk_a; chunk_b; chunk_c] 3 6 fresh_reply)
    as (r & Hr & Hstatus & Hcr & Hcl & _ & Hbody & _).
  - apply lookup_singleton_eq.
  - reflexivity.
  - apply small_service_chunks.
  - reflexivity.
  - lia.
  - lia.
  - by vm_compute.
  - exists r. by repeat split.
Defined.

(** Scenario S6 of the specification: 10,000 bytes stored as chunks of
    4096, 4096 and 1808 bytes, read with [Range: bytes=4000-5000]. *)
Definition s6_service : UploadService :=
  {| manifests :=
       {[ "X" := {| chunkHashes := ["h1"; "h2"; "h3"]; size := 10000;
                    mimeType := "video/mp4"; status := completed;
                    createdAt := 1762000000000 |} ]};
     blobs := <["h1" := replicate 4096 Byte.x01]>
                (<["h2" := replicate 4096 Byte.x02]>
                   {[ "h3" := replicate 1808 Byte.x03 ]}) |}.

Example getFile_S6 :
  ∃ r, getFile "X" (Some "bytes=4000-5000") fresh_reply s6_service = Ok r
    ∧ statusCode r = 206
    ∧ headers r !! "Content-Range" = Some (HString "bytes 4000-5000/10000")
    ∧ headers r !! "Content-Length" = Some (HNumber 1001)
    ∧ length (payload r) = 1001%nat
    ∧ payload r = replicate 96 Byte.x01 ++ replicate 905 Byte.x02.
Proof.
  eexists. split; [by vm_compute|]. by vm_compute.
Qed.

(** *** Further properties of the handler *)




Lemma regex_match_open_ended s :
  0 <= s →
  regex_match ("bytes=" +:+ Number_toString s +:+ "-")
  = Some (Number_toString s, EmptyString).
Proof.
  intros Hs.
  destruct (Number_toString_digits s Hs) as (ds & Es & Hns & _).
  rewrite Es. apply regex_match_here. unfold match_here.
  change (strip_prefix "bytes=" ("bytes=" +:+ ?x)) with (Some x).
  cbv beta iota. rewrite span_digits_uint by done.
  by destruct (NilEmpty.string_of_uint ds) as [|c g1] eqn:Eg.
Qed.

(** The range read from [Range: bytes=s-e] and from the open-ended
    [Range: bytes=s-], for any offsets [s], [e] that are not negative
    and a file of [n] bytes: no range when [s] is at or beyond the end of
    the file; else the range from [s] to [e], cut at the last offset
    [n - 1] (for the open-ended header: to [n - 1]).  An end before
    the start is not refused: [bytes=s-e] with [e < s < n] gives the
    range from [s] to [e], of length [e - s + 1 <= 0]. *)
Theorem parse_range_clamps s e n :
  0 <= s → 0 <= e →
  parse_range (Some (range_header s e)) n
  = (if s <? n then Some (s, Z.min e (n - 1)) else None)
  ∧ parse_range (Some ("bytes=" +:+ Number_toString s +:+ "-")) n
    = (if s <? n then Some (s, n - 1) else None).
Proof.
  intros Hs He. split.
  - unfold parse_range.
    rewrite regex_match_range_header by lia.
    rewrite !parseInt_Number_toString by lia.
    destruct (Number_toString_digits e He) as (de & Ee & Hne & _).
    unfold range_header. cbn [String.append].
    by destruct (Number_toString e) as [|c g2] eqn:Eg; [by rewrite Ee in Hne|].
  - unfold parse_range.
    rewrite regex_match_open_ended by lia.
    rewrite !parseInt_Number_toString by lia.
    cbn [String.append].
    by replace (Z.min (n - 1) (n - 1)) with (n - 1) by lia.
Qed.

Lemma parse_range_clamps_witness :
  parse_range (Some "bytes=5-100") 10 = Some (5, 9)
  ∧ parse_range (Some "bytes=20-30") 10 = None
  ∧ parse_range (Some "bytes=5-2") 10 = Some (5, 2)
  ∧ parse_range (Some "bytes=5-") 10 = Some (5, 9).
Proof.
  destruct (parse_range_clamps 5 100 10) as [H1 H4]; [lia | lia|].
  destruct (parse_range_clamps 20 30 10) as [H2 _]; [lia | lia|].
  destruct (parse_range_clamps 5 2 10) as [H3 _]; [lia | lia|].
  split; [exact H1|]. split; [exact H2|]. split; [exact H3 | exact H4].
Defined.

End UploadController.

(** ** File utilities: chunked hashing, speed and remaining time *)

Module FileUtils.

Local Open Scope Z_scope.

Abbreviation bytes := (list Byte.byte).

(** [sliceFile(file, start, end)]: [file.slice(start, end)], for offsets
    that are not negative. *)
Definition sliceFile (file : bytes) (start end_ : Z) : bytes :=
  UploadController.slice file start end_.

(** What the [FileReader] does with one [readAsArrayBuffer]: [onload]
    with the bytes, [onload] without a result, or [onerror]. *)
Inductive ReadOutcome : Type := Loaded | NoResult | ReadFails.

(** [const chunkSize = 2 * 1024 * 1024] *)
Definition chunkSize : Z := 2 * 1024 * 1024.

(** [Math.ceil(file.size / chunkSize)] *)
Definition chunks (size : Z) : Z := Qceiling (inject_Z size / inject_Z chunkSize).

(** [Math.min((currentChunk / chunks) * 100, 100)]; for an empty file
    [chunks] is 0 and the quotient is [Infinity]. *)
Definition progress_of (currentChunk chunks : Z) : Q :=
  if chunks =? 0 then 100%Q
  else Qmin (inject_Z currentChunk / inject_Z chunks * 100) 100.

Section Hash.

(** SparkMD5: [spark.end()] is the digest of the bytes appended so
    far. *)
Variable md5 : bytes → string.

(** [loadNext()] and the [onload] or [onerror] that follows it, up to
    [fuel] times: [spark] holds the bytes appended so far; the result is
    what the promise settles with and the values given to
    [onProgress]. *)
Fixpoint loadNext (fuel : nat) (file : bytes) (read : Z → ReadOutcome)
    (currentChunk : Z) (spark : bytes) : option (result string string * list Q) :=
  match fuel with
  | O => None
  | S fuel =>
      let size := Z.of_nat (length file) in
      let start := currentChunk * chunkSize in
      let end_ := Z.min (start + chunkSize) size in
      let blob := sliceFile file start end_ in
      match read currentChunk with
      | ReadFails => Some (Throw "Failed to read file"%string, [])
      | NoResult => Some (Throw "Failed to read file chunk"%string, [])
      | Loaded =>
          let spark := spark ++ blob in
          let currentChunk := currentChunk + 1 in
          let p := progress_of currentChunk (chunks size) in
          if currentChunk <? chunks size then
            match loadNext fuel file read currentChunk spark with
            | Some (r, ps) => Some (r, p :: ps)
            | None => None
            end
          else Some (Ok (md5 spark), [p])
      end
  end.

(** [calculateFileHash(file, onProgress)]: [fileReader] tells whether
    [FileReader] is defined, [read k] what reading chunk [k] does. *)
Definition calculateFileHash (fuel : nat) (fileReader : bool) (file : bytes)
    (read : Z → ReadOutcome) : option (result string string * list Q) :=
  if negb fileReader then
    Some (Throw "FileReader is not available in this environment"%string, [])
  else loadNext fuel file read 0 [].

End Hash.

Local Open Scope Q_scope.

(** [calculateSpeed(uploadedBytes, elapsedMs)] *)
Definition calculateSpeed (uploadedBytes elapsedMs : Q) : Q :=
  if ChunkSizeAdjuster.leb elapsedMs 0 then 0
  else uploadedBytes / elapsedMs * 1000.

(** [estimateRemainingTime(remainingBytes, speed)] *)
Definition estimateRemainingTime (remainingBytes speed : Q) : Q :=
  if ChunkSizeAdjuster.leb speed 0 || ChunkSizeAdjuster.leb remainingBytes 0 then 0
  else remainingBytes / speed.

Local Close Scope Q_scope.

(** *** Properties *)

Lemma chunkSize_pos : 0 < chunkSize.
Proof. done. Qed.

Lemma chunks_spec size :
  0 <= size →
  0 <= chunks size
  ∧ size <= chunks size * chunkSize
  ∧ (chunks size - 1) * chunkSize < size.
Proof.
  intros Hs. unfold chunks.
  set (x := (inject_Z size / inject_Z chunkSize)%Q).
  pose proof (Qle_ceiling x) as Hle.
  pose proof (Qceiling_lt x) as Hlt.
  assert (x * inject_Z chunkSize == inject_Z size)%Q as Hx.
  { unfold x. field. done. }
  assert (0 < inject_Z chunkSize)%Q as Hc by done.
  assert (0 <= inject_Z size)%Q as Hs'.
  { rewrite <- (Zle_Qle 0). done. }
  set (c := Qceiling x) in *.
  assert (inject_Z size <= inject_Z (c * chunkSize))%Q as H1.
  { rewrite inject_Z_mult. nra. }
  assert (inject_Z ((c - 1) * chunkSize) < inject_Z size)%Q as H2.
  { rewrite inject_Z_mult. nra. }
  rewrite <- Zle_Qle in H1. rewrite <- Zlt_Qlt in H2.
  split; [|done].
  pose proof chunkSize_pos. nia.
Qed.

Lemma progress_of_range k n :
  0 < k → 0 <= n → (0 < progress_of k n ∧ progress_of k n <= 100)%Q.
Proof.
  intros Hk Hn. unfold progress_of.
  destruct (Z.eqb_spec n 0) as [->|Hne]; [done|].
  assert (0 < inject_Z k)%Q by (by rewrite <- (Zlt_Qlt 0)).
  assert (0 < inject_Z n)%Q by (rewrite <- (Zlt_Qlt 0); lia).
  assert (0 < inject_Z k / inject_Z n)%Q.
  { apply Qlt_shift_div_l; [done|]. lra. }
  split; [|apply Q.le_min_r].
  apply Q.min_glb_lt; lra.
Qed.

Lemma progress_of_done k n :
  0 < k → 0 <= n → n <= k → (progress_of k n == 100)%Q.
Proof.
  intros Hk Hn Hle. unfold progress_of.
  destruct (Z.eqb_spec n 0) as [->|Hne]; [done|].
  assert (0 < inject_Z n)%Q by (rewrite <- (Zlt_Qlt 0); lia).
  assert (inject_Z n <= inject_Z k)%Q by (by rewrite <- Zle_Qle).
  assert (1 <= inject_Z k / inject_Z n)%Q.
  { apply Qle_shift_div_l; [done|]. lra. }
  apply Q.min_r. lra.
Qed.

Lemma loadNext_all_loaded md5 fuel file read k :
  let size := Z.of_nat (length file) in
  (∀ i, 0 <= i → read i = Loaded) →
  0 <= k → k < chunks size ∨ k = 0 →
  (Z.to_nat (Z.max 1 (chunks size - k)) ≤ fuel)%nat →
  ∃ ps p,
    loadNext md5 fuel file read k (take (Z.to_nat (k * chunkSize)) file)
    = Some (Ok (md5 file), ps)
    ∧ length ps = Z.to_nat (Z.max 1 (chunks size - k))
    ∧ Forall (λ p, 0 < p ∧ p <= 100)%Q ps
    ∧ last ps = Some p ∧ (p == 100)%Q.
Proof.
  intros size Hread. revert k.
  pose proof chunkSize_pos as Hcs.
  destruct (chunks_spec size ltac:(lia)) as (Hn0 & Hup & Hlow).
  induction fuel as [|fuel IH]; intros k Hk Hlt Hfuel; [lia|].
  cbn [loadNext]. rewrite (Hread k Hk). fold size.
  assert (k * chunkSize <= size) as Hstart by nia.
  assert (take (Z.to_nat (k * chunkSize)) file
          ++ sliceFile file (k * chunkSize) (Z.min (k * chunkSize + chunkSize) size)
          = take (Z.to_nat (Z.min ((k + 1) * chunkSize) size)) file) as Hspark.
  { unfold sliceFile, UploadController.slice. rewrite take_take_drop. f_equal. lia. }
  rewrite Hspark.
  destruct (Z.ltb_spec (k + 1) (chunks size)) as [Hmore|Hlast].
  - assert ((k + 1) * chunkSize < size) by nia.
    replace (Z.min ((k + 1) * chunkSize) size) with ((k + 1) * chunkSize) by lia.
    destruct (IH (k + 1)) as (ps & p & -> & Hlen & Hall & Hlast & Hp);
      [lia | by left | lia|].
    exists (progress_of (k + 1) (chunks size) :: ps), p.
    split; [done|]. split; [cbn; lia|].
    split; [apply Forall_cons; split; [apply progress_of_range; lia | done]|].
    split; [|done].
    destruct ps as [|q ps]; [cbn in Hlen; lia | done].
  - assert (size <= (k + 1) * chunkSize) by nia.
    replace (Z.min ((k + 1) * chunkSize) size) with size by lia.
    unfold size at 1. rewrite Nat2Z.id, firstn_all.
    eexists _, _. split; [reflexivity|].
    split; [cbn; lia|].
    split; [apply Forall_singleton, progress_of_range; lia|].
    split; [reflexivity|]. apply progress_of_done; lia.
Qed.

(** When every read succeeds, [calculateFileHash] resolves with the
    digest of the whole file and nothing else: the chunks of 2 MiB it
    reads, in order, are the file's bytes without gap or overlap (for an
    empty file it reads one empty chunk).  It reports progress once per
    chunk, each value above 0 and at most 100, the last being 100.  The
    loop runs [max 1 (ceil (size / chunkSize))] times. *)
Theorem calculateFileHash_whole_file md5 fuel file read :
  (∀ i, 0 <= i → read i = Loaded) →
  (Z.to_nat (Z.max 1 (chunks (Z.of_nat (length file)))) ≤ fuel)%nat →
  ∃ ps p,
    calculateFileHash md5 fuel true file read = Some (Ok (md5 file), ps)
    ∧ length ps = Z.to_nat (Z.max 1 (chunks (Z.of_nat (length file))))
    ∧ Forall (λ p, 0 < p ∧ p <= 100)%Q ps
    ∧ last ps = Some p ∧ (p == 100)%Q.
Proof.
  intros Hread Hfuel. unfold calculateFileHash. cbn [negb].
  destruct (loadNext_all_loaded md5 fuel file read 0 Hread) as (ps & p & H);
    [lia | by right | by rewrite Z.sub_0_r|].
  rewrite Z.sub_0_r in H. cbn in H. by exists ps, p.
Qed.

Definition three_bytes : bytes := [Byte.x61; Byte.x62; Byte.x63].

Lemma calculateFileHash_whole_file_witness :
  ∃ ps p,
    calculateFileHash String.string_of_list_byte 1 true
      three_bytes (λ _, Loaded)
    = Some (Ok "abc"%string, ps)
    ∧ length ps = 1%nat ∧ last ps = Some p ∧ (p == 100)%Q.
Proof.
  destruct (calculateFileHash_whole_file
              String.string_of_list_byte 1
              three_bytes (λ _, Loaded))
    as (ps & p & Hres & Hlen & _ & Hlast & Hp).
  - reflexivity.
  - by vm_compute.
  - exists ps, p. split; [exact Hres|]. split; [exact Hlen|].
    split; [exact Hlast | exact Hp].
Defined.

(** A read that fails ends the hashing at once: with [FileReader]
    missing the promise rejects before any read; when chunk [k] is the
    first whose read fails, the promise rejects with "Failed to read
    file" (or "Failed to read file chunk" when the read gives no
    result), after progress reports for the [k] chunks before it, and no
    digest is produced. *)
Theorem calculateFileHash_read_failure md5 fuel file read k :
  0 <= k →
  k < Z.max 1 (chunks (Z.of_nat (length file))) →
  (Z.to_nat (Z.max 1 (chunks (Z.of_nat (length file)))) ≤ fuel)%nat →
  (∀ i, 0 <= i < k → read i = Loaded) →
  read k ≠ Loaded →
  ∃ ps,
    calculateFileHash md5 fuel true file read
    = Some (Throw (match read k with
                   | NoResult => "Failed to read file chunk"
                   | _ => "Failed to read file"
                   end)%string, ps)
    ∧ length ps = Z.to_nat k.
Proof.
  intros Hk Hlt Hfuel Hbefore Hfail. unfold calculateFileHash. cbn [negb].
  set (size := Z.of_nat (length file)) in *.
  assert (∀ n j spark, n = Z.to_nat (k - j) → 0 <= j <= k →
            (Z.to_nat (Z.max 1 (chunks size - j)) ≤ fuel)%nat → ∀ fuel', fuel' = fuel →
            ∃ ps, loadNext md5 fuel' file read j spark
                  = Some (Throw (match read k with
                                 | NoResult => "Failed to read file chunk"
                                 | _ => "Failed to read file"
                                 end)%string, ps)
                  ∧ length ps = n) as Hloop.
  { clear Hfuel. intros n. revert fuel.
    induction n as [|n IH]; intros fuel j spark Hn Hj Hf fuel' ->.
    - assert (j = k) as -> by lia.
      destruct fuel as [|fuel]; [lia|]. cbn [loadNext].
      destruct (read k); [done| |]; by eexists.
    - destruct fuel as [|fuel]; [lia|]. cbn [loadNext].
      rewrite (Hbefore j) by lia. fold size.
      assert ((j + 1 <? chunks size) = true) as -> by lia.
      destruct (IH fuel (j + 1) (spark ++ sliceFile file (j * chunkSize)
                                   (Z.min (j * chunkSize + chunkSize) size)))
        with (fuel' := fuel) as (ps & -> & Hlen); [lia | lia | lia | done|].
      eexists. split; [reflexivity|]. cbn. by rewrite Hlen. }
  destruct (Hloop (Z.to_nat k) 0 [] ltac:(f_equal; lia) ltac:(lia)) with (fuel' := fuel)
    as (ps & Hps & Hlen); [by rewrite Z.sub_0_r | done|].
  by exists ps.
Qed.

Lemma calculateFileHash_read_failure_witness :
  ∃ ps,
    calculateFileHash (λ _, "digest"%string) 1 true three_bytes (λ _, ReadFails)
    = Some (Throw "Failed to read file"%string, ps)
    ∧ length ps = 0%nat.
Proof.
  destruct (calculateFileHash_read_failure (λ _, "digest"%string) 1
              three_bytes (λ _, ReadFails) 0)
    as (ps & Hres & Hlen).
  - lia.
  - by vm_compute.
  - by vm_compute.
  - intros i Hi. lia.
  - discriminate.
  - exists ps. split; [exact Hres | exact Hlen].
Defined.

Local Open Scope Q_scope.

(** The estimate made from a measured speed is never negative, whatever
    the inputs; it is 0 when no time has elapsed, nothing was uploaded
    or nothing remains; and for [uploaded > 0] bytes sent in
    [elapsed > 0] ms with [remaining > 0] bytes to go it is
    [remaining * elapsed / (1000 * uploaded)] seconds. *)
Theorem estimateRemainingTime_of_speed remaining uploaded elapsed :
  0 <= estimateRemainingTime remaining (calculateSpeed uploaded elapsed)
  ∧ (elapsed <= 0 ∨ uploaded <= 0 ∨ remaining <= 0 →
     estimateRemainingTime remaining (calculateSpeed uploaded elapsed) = 0)
  ∧ (0 < elapsed → 0 < uploaded → 0 < remaining →
     estimateRemainingTime remaining (calculateSpeed uploaded elapsed)
     == remaining * elapsed / (1000 * uploaded)).
Proof.
  unfold estimateRemainingTime, calculateSpeed.
  destruct (ChunkSizeAdjuster.leb elapsed 0) eqn:He.
  { cbn. split; [done|]. split; [done|].
    apply ChunkSizeAdjuster.leb_true in He. lra. }
  apply ChunkSizeAdjuster.leb_false in He.
  destruct (ChunkSizeAdjuster.leb (uploaded / elapsed * 1000) 0) eqn:Hs.
  { cbn. split; [done|]. split; [done|].
    apply ChunkSizeAdjuster.leb_true in Hs. intros _ Hu _.
    assert (0 < uploaded / elapsed) by (apply Qlt_shift_div_l; lra). lra. }
  apply ChunkSizeAdjuster.leb_false in Hs.
  destruct (ChunkSizeAdjuster.leb remaining 0) eqn:Hr.
  { cbn. split; [done|]. split; [done|].
    apply ChunkSizeAdjuster.leb_true in Hr. lra. }
  apply ChunkSizeAdjuster.leb_false in Hr. cbn.
  assert (0 < uploaded) as Hu.
  { destruct (Qlt_le_dec 0 uploaded) as [|Hneg]; [done|].
    assert (uploaded / elapsed <= 0); [|lra].
    apply Qle_shift_div_r; lra. }
  split; [|split].
  - apply Qlt_le_weak, Qlt_shift_div_l; lra.
  - intros [?|[?|?]]; lra.
  - intros _ _ _. field. split; lra.
Qed.

Lemma estimateRemainingTime_of_speed_witness :
  estimateRemainingTime 3000 (calculateSpeed 1000 500) == (3 # 2)
  ∧ estimateRemainingTime 3000 (calculateSpeed 1000 0) = 0.
Proof.
  destruct (estimateRemainingTime_of_speed 3000 1000 500) as (_ & _ & H).
  destruct (estimateRemainingTime_of_speed 3000 1000 0) as (_ & H0 & _).
  split.
  - rewrite H by done. reflexivity.
  - apply H0. by left.
Defined.

End FileUtils.
